(** * Matrix-free operator inversion: [include/bout/invertable_operator.hxx]

    A shallow embedding of the [InvertableOperator<T>] class template and of
    the two marshalling templates [fieldToPetscVec] and [petscVecToField],
    followed by the properties of the engine that the specification states.

    Conventions of the embedding.
    - [BoutReal] and [PetscScalar] are one abstract type [scalar]; the code
      only copies scalars, except in [verify], whose arithmetic is supplied
      through the interface [BoutRealOps].
    - A field of type [T] is its mesh and its data block.  Iterating over a
      field ([for (const auto &i : f)]) visits the indices [cells] of its
      mesh in order; [f[i]] is entry [i] of the data block.
    - PETSc is an oracle: the error code of every call and the course of the
      Krylov iteration are functions of the calls made so far.
    - Objects of the class live in a store, addressed by [this]; the shell
      matrix keeps the address, as [MatCreateShell] is given [this].
    - [TRACE] and [Timer] only feed diagnostics and are left out. *)

From stdpp Require Import base option list gmap strings.
From Stdlib Require Import ZArith Lia.

Local Open Scope Z_scope.
Local Open Scope nat_scope.

(** ** Outcomes of a call *)

Definition PetscErrorCode := Z.

(** The exceptions thrown in the header.  [AssertionFailed] is what [ASSERT2]
    throws in builds that enable it. *)
Inductive BoutException :=
| SetupTwice
| InvertBeforeSetup
| KSPSolveFailed (reason : Z)
| AssertionFailed (condition : string).

(** The format string given to the [BoutException] constructor. *)
Definition what (e : BoutException) : string :=
  match e with
  | SetupTwice =>
      "Trying to call setup on an InvertableOperator instance that has already been setup."
  | InvertBeforeSetup =>
      "Trying to call invert on an InvertableOperator instance that has not been setup."
  | KSPSolveFailed _ => "KSPSolve failed with reason %d."
  | AssertionFailed c => c
  end.

(** The arguments that go with the format string. *)
Definition what_args (e : BoutException) : list Z :=
  match e with
  | KSPSolveFailed reason => [reason]
  | _ => []
  end.

(** How a call ends.
    - [Normal a]: control reached a [return a]; for the two marshalling
      templates, whose every call in the header is a statement that reads no
      value, [Normal ()] is the end of the body.
    - [ChkErr ierr]: [CHKERRQ(ierr)] found [ierr] non-zero and executed its
      [return] statement.
    - [Throw e]: a [BoutException] left the function.
    - [Undefined]: the code indexed past the end of an array, read an
      unallocated field, used a PETSc handle that was never created, read a
      local variable that nothing has written, or ran off the end of
      [setup()], whose caller is owed a [PetscErrorCode]. *)
Inductive outcome (A : Type) :=
| Normal (a : A)
| ChkErr (ierr : PetscErrorCode)
| Throw (e : BoutException)
| Undefined.
Arguments Normal {A} a.
Arguments ChkErr {A} ierr.
Arguments Throw {A} e.
Arguments Undefined {A}.

(** ** Meshes, PETSc calls and the event trace *)

(** What the engine uses of a mesh: the order in which a field of type [T]
    on it is iterated, and the size of the field's data block.  [mesh_id]
    stands for the address compared by [localmesh == rhsField.getMesh()]. *)
Record Mesh := { mesh_id : nat; cells : list nat; ncells : nat }.

#[global] Instance Mesh_eq_dec : EqDecision Mesh.
Proof. solve_decision. Defined.

(** Every index that the iteration visits lies in the data block, and no
    index is visited twice. *)
Definition mesh_ok (m : Mesh) : Prop :=
  NoDup (cells m) ∧ Forall (λ i, i < ncells m) (cells m).

Inductive PetscCall :=
| MatCreateShell | MatCreateVecs | MatShellSetOperation | MatShellGetContext
| KSPCreate | KSPSetOperators | KSPSetOptionsPrefix | KSPSetFromOptions
| KSPSetUp | KSPSolve | KSPGetConvergedReason
| VecGetArray | VecRestoreArray | VecGetArrayRead | VecRestoreArrayRead.

#[global] Instance PetscCall_eq_dec : EqDecision PetscCall.
Proof. solve_decision. Defined.

(** What is observable of a run besides its result: the PETSc calls and the
    allocations of field data, in the order they happen. *)
Inductive Event :=
| Call (c : PetscCall)
| Allocate (m : Mesh).

#[global] Instance Event_eq_dec : EqDecision Event.
Proof. solve_decision. Defined.

Inductive MatOperation := MATOP_MULT.

#[global] Instance MatOperation_eq_dec : EqDecision MatOperation.
Proof. solve_decision. Defined.

(** The functions that the header registers with a shell matrix. *)
Inductive MatCallback := FunctionWrapper.

(** A shell matrix: its local sizes, the context pointer and the operations
    registered so far. *)
Record Mat := {
  mat_rows : nat;
  mat_cols : nat;
  mat_ctx : nat;
  mat_ops : list (MatOperation * MatCallback)
}.

(** The local array of a PETSc [Vec]. *)
Abbreviation Vec := list (only parsing).

Section Embedding.

Context {scalar : Type}.

(** ** Fields and vectors *)


(** A field: [data = None] until [allocate()] is called. *)
Record Field := { getMesh : Mesh; data : option (list scalar) }.

(** [T f(localmesh)]: a field on the mesh, without data. *)
Definition Field_on (m : Mesh) : Field := {| getMesh := m; data := None |}.

(** The course of one [KSPSolve], as the solver decides it: it asks for the
    product with a trial vector ([MatMult], with the vector that receives the
    product) and goes on from the error code and the product, or it stops
    ([KspDone]) with its own error code, the solution vector and the
    convergence reason. *)
Inductive KspRun :=
| MatMult (v1 v2 : Vec scalar) (k : PetscErrorCode → Vec scalar → KspRun)
| KspDone (ierr : PetscErrorCode) (x : Vec scalar) (reason : Z).

(** The PETSc library, as far as the engine can tell.  All answers may depend
    on the calls made so far.
    - [ierr_of]: the error code a call returns ([KSPSolve] apart);
    - [vec_init]: the entries of a vector made by [MatCreateVecs];
    - [heap_init]: the entries of newly allocated field data;
    - [ksp_run]: the Krylov iteration for a right-hand side and a start
      vector. *)
Record Petsc := {
  ierr_of : list Event → PetscCall → PetscErrorCode;
  vec_init : nat → scalar;
  heap_init : nat → scalar;
  ksp_run : list Event → Vec scalar → Vec scalar → KspRun
}.

(** The solver object. *)
Record KSP := {
  ksp_Amat : option Mat;
  ksp_Pmat : option Mat;
  ksp_prefix : string;
  ksp_from_options : bool;
  ksp_is_setup : bool;
  ksp_reason : Z
}.

(** The signature of the functor that applies the operator. *)
Definition function_signature := Field → Field.

(** The data members of [InvertableOperator<T>].  A PETSc handle is [None]
    until the call that creates the object.  ([opt] and [lib] are never
    read.) *)
Record InvertableOperator := {
  operatorFunction : function_signature;
  matOperator : option Mat;
  rhs : option (Vec scalar);
  lhs : option (Vec scalar);
  ksp : option KSP;
  localmesh : Mesh;
  doneSetup : bool
}.

(** The state of the program: the objects of the class by address, and the
    trace of events. *)
Record World := {
  objects : gmap nat InvertableOperator;
  trace : list Event
}.

Definition log (e : Event) (w : World) : World :=
  {| objects := objects w; trace := trace w ++ [e] |}.

(** A PETSc call: it is logged, and answers with the oracle's error code. *)
Definition petsc_call (petsc : Petsc) (c : PetscCall) (w : World)
  : World * PetscErrorCode :=
  (log (Call c) w, ierr_of petsc (trace w) c).

(** [T::allocate()]: gives the field a data block of the size its mesh asks
    for; a block that is already there is kept. *)
Definition allocate (petsc : Petsc) (f : Field) (w : World) : World * Field :=
  match data f with
  | Some _ => (w, f)
  | None =>
      (log (Allocate (getMesh f)) w,
       {| getMesh := getMesh f;
          data := Some (map (heap_init petsc) (seq 0 (ncells (getMesh f)))) |})
  end.

(** ** The marshalling templates *)

(** The loop of [fieldToPetscVec]:
    [for (const auto &i : in) { vecData[counter] = in[i]; counter++; }].
    [None] when [in[i]] or [vecData[counter]] is outside its array.
    ([counter] is an [int]; it stays below the length of an array that was
    indexed with it, so it is a [nat] here.) *)
Fixpoint pack_loop (d : list scalar) (range : list nat) (counter : nat)
    (vecData : Vec scalar) : option (Vec scalar) :=
  match range with
  | [] => Some vecData
  | i :: range' =>
      match d !! i with
      | Some x =>
          if decide (counter < length vecData)
          then pack_loop d range' (S counter) (<[counter := x]> vecData)
          else None
      | None => None
      end
  end.

(** [fieldToPetscVec(in, out)]: the final contents of [out] and how the call
    ended.  The body has no [return] at its end; the header calls the
    template only as a statement (see [pack_stmt]). *)
Definition fieldToPetscVec (petsc : Petsc) (inF : Field) (out : Vec scalar) (w : World)
  : World * Vec scalar * outcome unit :=
  let '(w1, ierr) := petsc_call petsc VecGetArray w in
  if decide (ierr = 0%Z) then
    match data inF with
    | None => (w1, out, Undefined)
    | Some d =>
        match pack_loop d (cells (getMesh inF)) 0 out with
        | None => (w1, out, Undefined)
        | Some out' =>
            let '(w2, ierr2) := petsc_call petsc VecRestoreArray w1 in
            if decide (ierr2 = 0%Z) then (w2, out', Normal ())
            else (w2, out', ChkErr ierr2)
        end
    end
  else (w1, out, ChkErr ierr).

(** The loop of [petscVecToField]:
    [for (const auto &i : out) { out[i] = vecData[counter]; counter++; }]. *)
Fixpoint unpack_loop (vecData : Vec scalar) (range : list nat) (counter : nat)
    (d : list scalar) : option (list scalar) :=
  match range with
  | [] => Some d
  | i :: range' =>
      match vecData !! counter with
      | Some x =>
          if decide (i < length d)
          then unpack_loop vecData range' (S counter) (<[i := x]> d)
          else None
      | None => None
      end
  end.

(** [petscVecToField(in, out)]: the final state of [out] and how the call
    ended.  The body has no [return] at its end either (see
    [unpack_stmt]). *)
Definition petscVecToField (petsc : Petsc) (inV : Vec scalar) (out : Field) (w : World)
  : World * Field * outcome unit :=
  let '(w1, ierr) := petsc_call petsc VecGetArrayRead w in
  if decide (ierr = 0%Z) then
    match data out with
    | None => (w1, out, Undefined)
    | Some d =>
        match unpack_loop inV (cells (getMesh out)) 0 d with
        | None => (w1, out, Undefined)
        | Some d' =>
            let out' := {| getMesh := getMesh out; data := Some d' |} in
            let '(w2, ierr2) := petsc_call petsc VecRestoreArrayRead w1 in
            if decide (ierr2 = 0%Z) then (w2, out', Normal ())
            else (w2, out', ChkErr ierr2)
        end
    end
  else (w1, out, ChkErr ierr).

(** ** What the header takes from the rest of the library *)

(** The build and the declarations that the header includes: the [CHECK]
    level, the global [mesh] that a null [localmesh] argument stands for, and
    the constructor of [T] from a number, through which [return ierr;] gives
    a [T] in a function that returns one. *)
Record Bout := {
  CHECK : nat;
  mesh : Mesh;
  Field_of_code : PetscErrorCode → Field
}.

(** [BoutReal] arithmetic, as far as [verify] needs it. *)
Class BoutRealOps := {
  rminus : scalar → scalar → scalar;
  rabs : scalar → scalar;
  rmax : scalar → scalar → scalar;
  rlt : scalar → scalar → bool
}.

(** The local elements of a field, in iteration order. *)
Definition elements (f : Field) : option (list scalar) :=
  d ← data f; mapM (λ i, d !! i) (cells (getMesh f)).

(** Modelled from the spec: [operator-] on fields is not in these sources;
    the residual [apply(x) - b] is the difference element by element. *)
Definition Field_minus `{BoutRealOps} (a b : Field) : option (list scalar) :=
  xs ← elements a; ys ← elements b;
  if decide (length xs = length ys) then Some (zip_with rminus xs ys) else None.

(** Modelled from the spec: [abs] on fields is not in these sources; the
    absolute value is taken element by element. *)
Definition Field_abs `{BoutRealOps} (xs : list scalar) : list scalar :=
  map rabs xs.

(** Modelled from the spec: [max] on fields is not in these sources; it is
    the maximum over all elements (there is none for an empty field). *)
Definition Field_max `{BoutRealOps} (xs : list scalar) : option scalar :=
  match xs with
  | [] => None
  | x :: xs' => Some (foldl rmax x xs')
  end.

(** ** The state and error monad of the member functions *)

Definition M (A : Type) : Type := World → World * outcome A.

Definition ret {A} (a : A) : M A := λ w, (w, Normal a).

Definition bind {A B} (m : M A) (f : A → M B) : M B :=
  λ w, let '(w1, r) := m w in
       match r with
       | Normal a => f a w1
       | ChkErr ierr => (w1, ChkErr ierr)
       | Throw e => (w1, Throw e)
       | Undefined => (w1, Undefined)
       end.

#[export] Instance M_ret : MRet M := @ret.
#[export] Instance M_bind : MBind M := λ A B f m, bind m f.

Definition throw {A} (e : BoutException) : M A := λ w, (w, Throw e).

Definition undefined {A} : M A := λ w, (w, Undefined).

(** [CHKERRQ(ierr)]: returns from the enclosing function when [ierr] is not
    zero. *)
Definition CHKERRQ (ierr : PetscErrorCode) : M unit :=
  λ w, (w, if decide (ierr = 0%Z) then Normal () else ChkErr ierr).

(** [ASSERT2(condition)]: checked in builds with [CHECK >= 2]. *)
Definition ASSERT2 (bout : Bout) (condition : bool) (text : string) : M unit :=
  if decide (2 ≤ CHECK bout) then
    if condition then ret () else throw (AssertionFailed text)
  else ret ().

(** Reading and writing the object at [this]. *)
Definition get_this (this : nat) : M InvertableOperator :=
  λ w, match objects w !! this with
       | Some s => (w, Normal s)
       | None => (w, Undefined)
       end.

Definition store (this : nat) (s : InvertableOperator) (w : World) : World :=
  {| objects := <[this := s]> (objects w); trace := trace w |}.

Definition set_this (this : nat) (s : InvertableOperator) : M unit :=
  λ w, (store this s w, Normal ()).

(** Assignments to single members. *)
Definition with_operatorFunction (f : function_signature) (s : InvertableOperator) :=
  {| operatorFunction := f; matOperator := matOperator s; rhs := rhs s;
     lhs := lhs s; ksp := ksp s; localmesh := localmesh s;
     doneSetup := doneSetup s |}.

Definition with_matOperator (m : Mat) (s : InvertableOperator) :=
  {| operatorFunction := operatorFunction s; matOperator := Some m; rhs := rhs s;
     lhs := lhs s; ksp := ksp s; localmesh := localmesh s;
     doneSetup := doneSetup s |}.

Definition with_rhs (v : Vec scalar) (s : InvertableOperator) :=
  {| operatorFunction := operatorFunction s; matOperator := matOperator s;
     rhs := Some v; lhs := lhs s; ksp := ksp s; localmesh := localmesh s;
     doneSetup := doneSetup s |}.

Definition with_lhs (v : Vec scalar) (s : InvertableOperator) :=
  {| operatorFunction := operatorFunction s; matOperator := matOperator s;
     rhs := rhs s; lhs := Some v; ksp := ksp s; localmesh := localmesh s;
     doneSetup := doneSetup s |}.

Definition with_ksp (k : KSP) (s : InvertableOperator) :=
  {| operatorFunction := operatorFunction s; matOperator := matOperator s;
     rhs := rhs s; lhs := lhs s; ksp := Some k; localmesh := localmesh s;
     doneSetup := doneSetup s |}.

Definition with_doneSetup (b : bool) (s : InvertableOperator) :=
  {| operatorFunction := operatorFunction s; matOperator := matOperator s;
     rhs := rhs s; lhs := lhs s; ksp := ksp s; localmesh := localmesh s;
     doneSetup := b |}.

(** A PETSc call on members of the object at [this].  [effect] is what the
    call does to the object when it succeeds; it is [None] when the call is
    handed a handle that was never created. *)
Definition petsc_method (petsc : Petsc) (c : PetscCall) (this : nat)
    (effect : InvertableOperator → option InvertableOperator) : M PetscErrorCode :=
  λ w, match objects w !! this ≫= effect with
       | None => (w, Undefined)
       | Some s' =>
           let '(w1, ierr) := petsc_call petsc c w in
           if decide (ierr = 0%Z) then (store this s' w1, Normal ierr)
           else (w1, Normal ierr)
       end.

(** ** The member functions of [InvertableOperator<T>] *)

(** No-op function to use as a default. *)
Definition identity (inF : Field) : Field := inF.

(** The constructor: [func] defaults to [identity], a null [localmesh] to the
    global [mesh]; no PETSc object exists yet. *)
Definition new_InvertableOperator (bout : Bout) (func : option function_signature)
    (lm : option Mesh) : InvertableOperator :=
  {| operatorFunction := default identity func;
     matOperator := None; rhs := None; lhs := None; ksp := None;
     localmesh := default (mesh bout) lm;
     doneSetup := false |}.

(** Constructing an object at the address [this]. *)
Definition construct (bout : Bout) (this : nat) (func : option function_signature)
    (lm : option Mesh) : M unit :=
  set_this this (new_InvertableOperator bout func lm).

(** Allow the user to override the existing function. *)
Definition setOperatorFunction (this : nat) (func : function_signature) : M unit :=
  s ← get_this this;
  set_this this (with_operatorFunction func s).

(** [operator()]: apply the operator to a field. *)
Definition operator_call (this : nat) (input : Field) : M Field :=
  s ← get_this this;
  mret (operatorFunction s input).

(** A synonym for applying the operator to a field. *)
Definition apply (this : nat) (input : Field) : M Field :=
  operator_call this input.

(** The loop of [setup] that finds the local size:
    [for (const auto &i : tmp) { nlocal++; }]. *)
Definition count_cells (tmp : Field) : nat :=
  foldl (λ nlocal _, S nlocal) 0 (cells (getMesh tmp)).

(** A vector as PETSc creates it. *)
Definition new_Vec (petsc : Petsc) (n : nat) : Vec scalar :=
  map (vec_init petsc) (seq 0 n).

(** [MatShellSetOperation]: the callback takes the place of any earlier one
    for the same operation. *)
Definition set_operation (op : MatOperation) (cb : MatCallback) (m : Mat) : Mat :=
  {| mat_rows := mat_rows m; mat_cols := mat_cols m; mat_ctx := mat_ctx m;
     mat_ops := (op, cb) :: filter (λ p, p.1 ≠ op) (mat_ops m) |}.

Definition new_KSP : KSP :=
  {| ksp_Amat := None; ksp_Pmat := None; ksp_prefix := EmptyString;
     ksp_from_options := false; ksp_is_setup := false; ksp_reason := 0%Z |}.

Definition ksp_with_operators (a p : Mat) (k : KSP) : KSP :=
  {| ksp_Amat := Some a; ksp_Pmat := Some p; ksp_prefix := ksp_prefix k;
     ksp_from_options := ksp_from_options k; ksp_is_setup := ksp_is_setup k;
     ksp_reason := ksp_reason k |}.

Definition ksp_with_prefix (prefix : string) (k : KSP) : KSP :=
  {| ksp_Amat := ksp_Amat k; ksp_Pmat := ksp_Pmat k; ksp_prefix := prefix;
     ksp_from_options := ksp_from_options k; ksp_is_setup := ksp_is_setup k;
     ksp_reason := ksp_reason k |}.

Definition ksp_with_from_options (k : KSP) : KSP :=
  {| ksp_Amat := ksp_Amat k; ksp_Pmat := ksp_Pmat k; ksp_prefix := ksp_prefix k;
     ksp_from_options := true; ksp_is_setup := ksp_is_setup k;
     ksp_reason := ksp_reason k |}.

Definition ksp_with_is_setup (k : KSP) : KSP :=
  {| ksp_Amat := ksp_Amat k; ksp_Pmat := ksp_Pmat k; ksp_prefix := ksp_prefix k;
     ksp_from_options := ksp_from_options k; ksp_is_setup := true;
     ksp_reason := ksp_reason k |}.

Definition ksp_with_reason (reason : Z) (k : KSP) : KSP :=
  {| ksp_Amat := ksp_Amat k; ksp_Pmat := ksp_Pmat k; ksp_prefix := ksp_prefix k;
     ksp_from_options := ksp_from_options k; ksp_is_setup := ksp_is_setup k;
     ksp_reason := reason |}.

(** [setup()]: sets up the PETSc objects required for inverting the operator.
    The only [return] statements are those of [CHKERRQ].  After
    [doneSetup = true;] control runs off the end of a function that returns
    [PetscErrorCode]: the call has no defined result. *)
Definition setup (petsc : Petsc) (this : nat) : M PetscErrorCode :=
  s ← get_this this;
  if doneSetup s then throw SetupTwice
  else
    let nlocal := count_cells (Field_on (localmesh s)) in
    ierr ← petsc_method petsc MatCreateShell this (λ s,
      Some (with_matOperator
              {| mat_rows := nlocal; mat_cols := nlocal; mat_ctx := this;
                 mat_ops := [] |} s));
    _ ← CHKERRQ ierr;
    ierr ← petsc_method petsc MatCreateVecs this (λ s,
      m ← matOperator s;
      Some (with_lhs (new_Vec petsc (mat_rows m))
              (with_rhs (new_Vec petsc (mat_cols m)) s)));
    _ ← CHKERRQ ierr;
    ierr ← petsc_method petsc MatShellSetOperation this (λ s,
      m ← matOperator s;
      Some (with_matOperator (set_operation MATOP_MULT FunctionWrapper m) s));
    _ ← CHKERRQ ierr;
    ierr ← petsc_method petsc KSPCreate this (λ s, Some (with_ksp new_KSP s));
    _ ← CHKERRQ ierr;
    ierr ← petsc_method petsc KSPSetOperators this (λ s,
      k ← ksp s; m ← matOperator s;
      Some (with_ksp (ksp_with_operators m m k) s));
    _ ← CHKERRQ ierr;
    ierr ← petsc_method petsc KSPSetOptionsPrefix this (λ s,
      k ← ksp s; Some (with_ksp (ksp_with_prefix "invert_" k) s));
    _ ← CHKERRQ ierr;
    ierr ← petsc_method petsc KSPSetFromOptions this (λ s,
      k ← ksp s; Some (with_ksp (ksp_with_from_options k) s));
    _ ← CHKERRQ ierr;
    ierr ← petsc_method petsc KSPSetUp this (λ s,
      k ← ksp s; Some (with_ksp (ksp_with_is_setup k) s));
    _ ← CHKERRQ ierr;
    s ← get_this this;
    _ ← set_this this (with_doneSetup true s);
    undefined.

(** A call whose returned code the caller drops: only its effect on the
    argument remains. *)
Definition dropping_code {X} (r : World * X * outcome unit) : World * outcome X :=
  let '(w, x, st) := r in
  match st with
  | Undefined => (w, Undefined)
  | _ => (w, Normal x)
  end.

(** [fieldToPetscVec(in, out);] and [petscVecToField(in, out);] as
    statements: the returned code is not looked at. *)
Definition pack_stmt (petsc : Petsc) (inF : Field) (out : Vec scalar) : M (Vec scalar) :=
  λ w, dropping_code (fieldToPetscVec petsc inF out w).

Definition unpack_stmt (petsc : Petsc) (inV : Vec scalar) (out : Field) : M Field :=
  λ w, dropping_code (petscVecToField petsc inV out w).

(** [T f(m); f.allocate();] *)
Definition allocated_Field (petsc : Petsc) (m : Mesh) : M Field :=
  λ w, let '(w1, f) := allocate petsc (Field_on m) w in (w1, Normal f).

(** [functionWrapper(m, v1, v2)]: gets the parent instance from the matrix
    context, copies [v1] into a field, calls the operator on it and copies
    the result into [v2].  The result is the final contents of [v2] and how
    the call ended.  The pointer [ctx] is a local without initialiser that
    only a successful [MatShellGetContext] writes; [ierr] is not looked at
    before [ctx->localmesh] is read. *)
Definition functionWrapper (petsc : Petsc) (m : Mat) (v1 v2 : Vec scalar) (w : World)
  : World * Vec scalar * outcome PetscErrorCode :=
  let '(w0, ierr) := petsc_call petsc MatShellGetContext w in
  if decide (ierr = 0%Z) then
    let ctx := mat_ctx m in
    match objects w0 !! ctx with
    | None => (w0, v2, Undefined)
    | Some s =>
        match (tmpField ← allocated_Field petsc (localmesh s);
               tmpField ← unpack_stmt petsc v1 tmpField;
               tmpField2 ← operator_call ctx tmpField;
               pack_stmt petsc tmpField2 v2) w0 with
        | (w1, Normal v2') => (w1, v2', Normal ierr)
        | (w1, _) => (w1, v2, Undefined)
        end
    end
  else (w0, v2, Undefined).

(** The callback registered for an operation, if any. *)
Definition registered (op : MatOperation) (m : Mat) : option MatCallback :=
  snd <$> head (filter (λ p, p.1 = op) (mat_ops m)).

Definition PETSC_ERR_SUP : PetscErrorCode := 56%Z.

(** [MatMult] on a shell matrix calls what is registered for [MATOP_MULT]. *)
Definition MatMult_shell (petsc : Petsc) (A : Mat) (v1 v2 : Vec scalar) (w : World)
  : World * Vec scalar * outcome PetscErrorCode :=
  match registered MATOP_MULT A with
  | Some FunctionWrapper => functionWrapper petsc A v1 v2 w
  | None => (w, v2, Normal PETSC_ERR_SUP)
  end.

(** The solver at work: every product it asks for goes through [mult]. *)
Fixpoint ksp_iterate
    (mult : Vec scalar → Vec scalar → World → World * Vec scalar * outcome PetscErrorCode)
    (r : KspRun) (w : World) : World * outcome (PetscErrorCode * Vec scalar * Z) :=
  match r with
  | KspDone ierr x reason => (w, Normal (ierr, x, reason))
  | MatMult v1 v2 k =>
      let '(w1, v2', st) := mult v1 v2 w in
      match st with
      | Normal ierr | ChkErr ierr => ksp_iterate mult (k ierr v2') w1
      | Throw e => (w1, Throw e)
      | Undefined => (w1, Undefined)
      end
  end.

Definition modify_this (this : nat) (f : InvertableOperator → InvertableOperator)
  : M unit :=
  s ← get_this this; set_this this (f s).

(** [KSPSolve(ksp, rhs, lhs)] on the members of the object at [this]: the
    solution is left in [lhs], the reason in the solver. *)
Definition ksp_solve (petsc : Petsc) (this : nat) : M PetscErrorCode :=
  s ← get_this this;
  match ksp s ≫= ksp_Amat, ksp s, rhs s, lhs s with
  | Some A, Some k, Some b, Some x =>
      '(ierr, x', reason) ← ((λ w,
          ksp_iterate (MatMult_shell petsc A) (ksp_run petsc (trace w) b x)
            (log (Call KSPSolve) w)) : M _);
      _ ← modify_this this (λ s', with_ksp (ksp_with_reason reason k) (with_lhs x' s'));
      mret ierr
  | _, _, _, _ => undefined
  end.

(** [KSPConvergedReason reason; ierr = KSPGetConvergedReason(ksp, &reason);]:
    the code that the call returns, and the local [reason] afterwards.  The
    local has no initialiser, and only a successful call writes it: it is
    [None] after a call that failed. *)
Definition ksp_get_reason (petsc : Petsc) (this : nat)
  : M (PetscErrorCode * option Z) :=
  s ← get_this this;
  match ksp s with
  | Some k =>
      ierr ← (λ w, let '(w1, ierr) := petsc_call petsc KSPGetConvergedReason w in
                   (w1, Normal ierr)) : M _;
      mret (ierr, if decide (ierr = 0%Z) then Some (ksp_reason k) else None)
  | None => undefined
  end.

(** [invert(rhsField)]: triggers the solve of A.x = b.  [ChkErr ierr] is the
    [return] inside [CHKERRQ(ierr)]; the caller receives the [T] made from
    [ierr] (see [returned_T]).  The code of [KSPGetConvergedReason] is not
    looked at before [reason] is read. *)
Definition invert (petsc : Petsc) (bout : Bout) (this : nat) (rhsField : Field)
  : M Field :=
  s ← get_this this;
  if negb (doneSetup s) then throw InvertBeforeSetup
  else
    _ ← ASSERT2 bout (bool_decide (localmesh s = getMesh rhsField))
          "localmesh == rhsField.getMesh()";
    b ← match rhs s with
        | Some b => pack_stmt petsc rhsField b
        | None => undefined
        end;
    _ ← modify_this this (with_rhs b);
    ierr ← ksp_solve petsc this;
    _ ← CHKERRQ ierr;
    '(ierr, reason) ← ksp_get_reason petsc this;
    match reason with
    | None => undefined
    | Some reason =>
        if decide (reason ≤ 0)%Z then throw (KSPSolveFailed reason)
        else
          lhsField ← allocated_Field petsc (localmesh s);
          s' ← get_this this;
          match lhs s' with
          | Some x => unpack_stmt petsc x lhsField
          | None => undefined
          end
    end.

(** What the caller of a function that returns [T] receives. *)
Definition returned_T (bout : Bout) (m : M Field) : M Field :=
  λ w, let '(w1, r) := m w in
       match r with
       | ChkErr ierr => (w1, Normal (Field_of_code bout ierr))
       | _ => (w1, r)
       end.

(** [verify(rhs, tol)]: with checks enabled, checks that applying the
    registered function on the calculated inverse gives back the initial
    values. *)
Definition verify `{BoutRealOps} (petsc : Petsc) (bout : Bout) (this : nat)
    (rhs_ : Field) (tol : scalar) : M bool :=
  if decide (1 < CHECK bout) then
    result ← returned_T bout (invert petsc bout this rhs_);
    applied ← operator_call this result;
    match Field_max ∘ Field_abs <$> Field_minus applied rhs_ with
    | Some (Some maxDiff) => mret (rlt maxDiff tol)
    | _ => undefined
    end
  else mret true.

End Embedding.

Arguments Field : clear implicits.
Arguments KspRun : clear implicits.
Arguments Petsc : clear implicits.
Arguments InvertableOperator : clear implicits.
Arguments World : clear implicits.
Arguments Bout : clear implicits.
Arguments BoutRealOps : clear implicits.
Arguments function_signature : clear implicits.
Arguments M : clear implicits.

(** ** Predicates used in the statements *)

Section Predicates.

Context {scalar : Type}.

(** [f[i]]. *)
Definition Field_at (f : Field scalar) (i : nat) : option scalar :=
  d ← data f; d !! i.

(** [f] is a field on [m] with its data allocated. *)
Definition allocated_on (m : Mesh) (f : Field scalar) : Prop :=
  getMesh f = m ∧ ∃ d, data f = Some d ∧ length d = ncells m.

(** PETSc reports no error from the calls [cs]. *)
Definition no_error (petsc : Petsc scalar) (cs : list PetscCall) : Prop :=
  ∀ tr c, c ∈ cs → ierr_of petsc tr c = 0%Z.

(** A data member of the object at [this], if there is one. *)
Definition member {X} (proj : InvertableOperator scalar → X) (this : nat)
    (w : World scalar) : option X :=
  proj <$> objects w !! this.

(** Whether the object at [this] is set up. *)
Definition flag (this : nat) (w : World scalar) : option bool :=
  member doneSetup this w.

(** A field as [T f(m); f.allocate();] leaves it. *)
Definition fresh_Field (petsc : Petsc scalar) (m : Mesh) : Field scalar :=
  {| getMesh := m; data := Some (map (heap_init petsc) (seq 0 (ncells m))) |}.

(** The body of [functionWrapper] with the operator and the mesh given,
    where the code reads them through the context pointer (which it has
    only after a successful [MatShellGetContext]). *)
Definition multiply_with (petsc : Petsc scalar) (op : function_signature scalar)
    (lm : Mesh) (v1 v2 : Vec scalar) (w : World scalar)
  : World scalar * Vec scalar * outcome PetscErrorCode :=
  let '(w0, ierr) := petsc_call petsc MatShellGetContext w in
  if decide (ierr = 0%Z) then
    match (tmpField ← allocated_Field petsc lm;
           tmpField ← unpack_stmt petsc v1 tmpField;
           pack_stmt petsc (op tmpField) v2) w0 with
    | (w1, Normal v2') => (w1, v2', Normal ierr)
    | (w1, _) => (w1, v2, Undefined)
    end
  else (w0, v2, Undefined).

(** The PETSc calls of [setup()], in the order of the body. *)
Definition setup_calls : list PetscCall :=
  [MatCreateShell; MatCreateVecs; MatShellSetOperation; KSPCreate;
   KSPSetOperators; KSPSetOptionsPrefix; KSPSetFromOptions; KSPSetUp].

(** The object [s] as the last statement of [setup()] leaves it. *)
Definition set_up (petsc : Petsc scalar) (this : nat) (s : InvertableOperator scalar) :=
  let n := length (cells (localmesh s)) in
  let A := {| mat_rows := n; mat_cols := n; mat_ctx := this;
              mat_ops := [(MATOP_MULT, FunctionWrapper)] |} in
  {| operatorFunction := operatorFunction s;
     matOperator := Some A;
     rhs := Some (new_Vec petsc n);
     lhs := Some (new_Vec petsc n);
     ksp := Some {| ksp_Amat := Some A; ksp_Pmat := Some A; ksp_prefix := "invert_";
                    ksp_from_options := true; ksp_is_setup := true;
                    ksp_reason := 0%Z |};
     localmesh := localmesh s;
     doneSetup := true |}.

(** A computation that leaves every object as it is. *)
Definition unchanged {A} (m : M scalar A) : Prop :=
  ∀ w, objects (m w).1 = objects w.

(** A computation that leaves a data member of [this] as it is. *)
Definition keeps {A X} (proj : InvertableOperator scalar → X) (this : nat)
    (m : M scalar A) : Prop :=
  ∀ w, member proj this (m w).1 = member proj this w.

(** The calls a user can make on an object. *)
Inductive MemberCall :=
| CallSetOperatorFunction (func : function_signature scalar)
| CallOperator (input : Field scalar)
| CallApply (input : Field scalar)
| CallSetup
| CallInvert (rhsField : Field scalar)
| CallVerify (rhs_ : Field scalar) (tol : scalar).

Definition is_CallSetup (c : MemberCall) : bool :=
  match c with CallSetup => true | _ => false end.

Definition is_CallSetOperatorFunction (c : MemberCall) : bool :=
  match c with CallSetOperatorFunction _ => true | _ => false end.

(** The world after a member call on the object at [this], however the call
    ended. *)
Definition after_call `{BoutRealOps scalar} (petsc : Petsc scalar) (bout : Bout scalar)
    (this : nat) (c : MemberCall) (w : World scalar) : World scalar :=
  match c with
  | CallSetOperatorFunction func => (setOperatorFunction this func w).1
  | CallOperator input => (operator_call this input w).1
  | CallApply input => (apply this input w).1
  | CallSetup => (setup petsc this w).1
  | CallInvert rhsField => (invert petsc bout this rhsField w).1
  | CallVerify rhs_ tol => (verify petsc bout this rhs_ tol w).1
  end.

Definition after_calls `{BoutRealOps scalar} (petsc : Petsc scalar) (bout : Bout scalar)
    (this : nat) (cs : list MemberCall) (w : World scalar) : World scalar :=
  foldl (λ w c, after_call petsc bout this c w) w cs.

End Predicates.

Arguments MemberCall : clear implicits.

(** * Further code of the sources *)

Section Further.

Context {scalar : Type}.

(** ** The destructor

    [~InvertableOperator()] hands the four handles to [KSPDestroy],
    [MatDestroy] and [VecDestroy] (twice), whatever [doneSetup] is.  The
    members [matOperator], [rhs], [lhs] and [ksp] have no initialiser, so a
    handle that no PETSc call has created is indeterminate, and handing it
    over is undefined.  The returned codes are not looked at; the [KSPView]
    of builds with [CHECK > 3] only prints.  Afterwards the object is
    gone. *)
Definition end_of_lifetime (this : nat) : M scalar unit :=
  λ w, ({| objects := delete this (objects w); trace := trace w |}, Normal ()).

Definition destructor (this : nat) : M scalar unit :=
  s ← get_this this;
  match ksp s, matOperator s, rhs s, lhs s with
  | Some _, Some _, Some _, Some _ => end_of_lifetime this
  | _, _, _, _ => undefined
  end.

(** ** What a session that is set up looks like

    The flag is set, the shell matrix points back to the object and has
    [functionWrapper] for [MATOP_MULT], the solver works on that matrix, and
    both vectors have one entry for each local element of a field. *)
Definition ready (this : nat) (s : InvertableOperator scalar) : Prop :=
  doneSetup s = true ∧
  ∃ A k b x,
    matOperator s = Some A ∧ ksp s = Some k ∧ ksp_Amat k = Some A ∧
    mat_ctx A = this ∧ registered MATOP_MULT A = Some FunctionWrapper ∧
    rhs s = Some b ∧ lhs s = Some x ∧
    length b = length (cells (localmesh s)) ∧
    length x = length (cells (localmesh s)).

(** A solver run that works on vectors of [n] entries throughout. *)
Inductive sized (n : nat) : KspRun scalar → Prop :=
| sized_KspDone ierr x reason :
    length x = n → sized n (KspDone ierr x reason)
| sized_MatMult v1 v2 k :
    length v1 = n → length v2 = n →
    (∀ ierr v, length v = n → sized n (k ierr v)) →
    sized n (MatMult v1 v2 k).

(** A PETSc whose solver, given vectors of [n] entries, works on vectors of
    [n] entries. *)
Definition solver_sized (petsc : Petsc scalar) (n : nat) : Prop :=
  ∀ tr b x, length b = n → length x = n → sized n (ksp_run petsc tr b x).

(** The operator maps allocated fields on [m] to allocated fields on [m]. *)
Definition keeps_shape (m : Mesh) (op : function_signature scalar) : Prop :=
  ∀ x, allocated_on m x → allocated_on m (op x).

(** The codes that PETSc returns for the calls [cs] made one after the
    other, from the trace [tr] on. *)
Fixpoint answers (petsc : Petsc scalar) (tr : list Event) (cs : list PetscCall)
  : list PetscErrorCode :=
  match cs with
  | [] => []
  | c :: cs' => ierr_of petsc tr c :: answers petsc (tr ++ [Call c]) cs'
  end.

(** None of the calls [cs], made one after the other from the trace [tr]
    on, fails. *)
Definition all_succeed (petsc : Petsc scalar) (tr : list Event) (cs : list PetscCall)
  : Prop :=
  Forall (λ ierr, ierr = 0%Z) (answers petsc tr cs).

(** The events of one product in [functionWrapper], on the mesh [lm]: the
    look-up of the context, the allocation of the scratch field and the
    accessor calls of the two copies. *)
Definition product_events (lm : Mesh) : list Event :=
  [Call MatShellGetContext; Allocate lm;
   Call VecGetArrayRead; Call VecRestoreArrayRead;
   Call VecGetArray; Call VecRestoreArray].

(** The number of products that the solver asks for in a run, counted along
    the way [ksp_iterate] takes through it. *)
Fixpoint products
    (mult : Vec scalar → Vec scalar → World scalar
            → World scalar * Vec scalar * outcome PetscErrorCode)
    (r : KspRun scalar) (w : World scalar) : nat :=
  match r with
  | KspDone _ _ _ => 0
  | MatMult v1 v2 k =>
      let '(w1, v2', st) := mult v1 v2 w in
      match st with
      | Normal ierr | ChkErr ierr => S (products mult (k ierr v2') w1)
      | Throw _ | Undefined => 1
      end
  end.

(** ** The error measure of the Laplacian test

    [max_error_at_ystart] of [test_petsc_laplace.cxx].  A [Field3D] is read
    through [error(jx, jy, jz)]; the mesh gives the bounds of the loops. *)
Record Bounds := { xstart : Z; xend : Z; ystart : Z; LocalNz : Z }.

(** The two loops:
    [for (jx = xstart; jx <= xend; jx++) for (jz = 0; jz < LocalNz; jz++)
       if (local_max_error < error(jx, ystart, jz))
         local_max_error = error(jx, ystart, jz);]
    from [local_max_error = error(xstart, ystart, 0)]. *)
Definition local_max_error `{BoutRealOps scalar} (msh : Bounds)
    (error : Z → Z → Z → scalar) : scalar :=
  foldl (λ acc jx,
           foldl (λ acc jz,
                    if rlt acc (error jx (ystart msh) jz)
                    then error jx (ystart msh) jz else acc)
                 acc (seqZ 0 (LocalNz msh)))
        (error (xstart msh) (ystart msh) 0%Z)
        (seqZ (xstart msh) (xend msh - xstart msh + 1)).

(** [max_error_at_ystart(error)]: the local maximum goes through
    [MPI_Allreduce] with [MPI_MAX]; [allreduce] is what comes back. *)
Definition max_error_at_ystart `{BoutRealOps scalar} (allreduce : scalar → scalar)
    (msh : Bounds) (error : Z → Z → Z → scalar) : scalar :=
  allreduce (local_max_error msh error).

End Further.

(** ** Properties of the object at an address *)

Section Holding.

Context {scalar : Type}.

(** The object at [this] exists and satisfies [P]. *)
Definition holds (P : InvertableOperator scalar → Prop) (this : nat)
    (w : World scalar) : Prop :=
  ∃ s, objects w !! this = Some s ∧ P s.

(** A computation after which the object at [this] still satisfies [P]. *)
Definition preserves {A} (P : InvertableOperator scalar → Prop) (this : nat)
    (m : M scalar A) : Prop :=
  ∀ w, holds P this w → holds P this (m w).1.

(** All four PETSc objects of the session have been created, and the
    session is set up. *)
Definition created (s : InvertableOperator scalar) : Prop :=
  doneSetup s = true ∧
  is_Some (ksp s) ∧ is_Some (matOperator s) ∧ is_Some (rhs s) ∧ is_Some (lhs s).

(** A computation that only adds events to the trace. *)
Definition appends {A} (m : M scalar A) : Prop :=
  ∀ w, ∃ events, trace (m w).1 = trace w ++ events.

(** None has, and the session is not set up. *)
Definition untouched (s : InvertableOperator scalar) : Prop :=
  doneSetup s = false ∧
  ksp s = None ∧ matOperator s = None ∧ rhs s = None ∧ lhs s = None.

End Holding.

(** ** A small concrete instance, used by the examples

    Scalars are integers; the mesh has two cells, visited in the order 1, 0;
    PETSc reports no error and its solver makes one product before it stops
    with the product as solution and reason 2. *)

Module Demo.

Definition m2 : Mesh := {| mesh_id := 0; cells := [1; 0]; ncells := 2 |}.

Definition field (a b : Z) : Field Z := {| getMesh := m2; data := Some [a; b] |}.

Definition petsc0 : Petsc Z :=
  {| ierr_of := λ _ _, 0%Z;
     vec_init := λ _, 0%Z;
     heap_init := λ _, 0%Z;
     ksp_run := λ _ b x, MatMult b x (λ _ y, KspDone 0%Z y 2%Z) |}.

(** The same library with a solver that fails: [KSPSolve] returns the code
    [ierr] and leaves [reason]. *)
Definition petsc_failing (ierr reason : Z) : Petsc Z :=
  {| ierr_of := λ _ _, 0%Z;
     vec_init := λ _, 0%Z;
     heap_init := λ _, 0%Z;
     ksp_run := λ _ b x, KspDone ierr x reason |}.

(** The same library where the call [c] fails with code 1. *)
Definition petsc_without (c : PetscCall) : Petsc Z :=
  {| ierr_of := λ _ c', if decide (c' = c) then 1%Z else 0%Z;
     vec_init := λ _, 0%Z;
     heap_init := λ _, 0%Z;
     ksp_run := λ _ b x, MatMult b x (λ _ y, KspDone 0%Z y 2%Z) |}.

Definition bout0 : Bout Z :=
  {| CHECK := 2; mesh := m2;
     Field_of_code := λ ierr, {| getMesh := m2; data := Some [ierr; ierr] |} |}.

#[global] Instance Z_ops : BoutRealOps Z :=
  {| rminus := Z.sub; rabs := Z.abs; rmax := Z.max; rlt := Z.ltb |}.

(** An operator: every element is doubled. *)
Definition twice (f : Field Z) : Field Z :=
  {| getMesh := getMesh f; data := map (Z.mul 2) <$> data f |}.

Definition w0 : World Z := {| objects := ∅; trace := [] |}.

(** An object at address 5, constructed with the defaults. *)
Definition w_new : World Z := (construct bout0 5 None None w0).1.

(** The same object as the body of [setup()] leaves it when no PETSc call
    fails (the call itself has no defined result). *)
Definition w_setup (petsc : Petsc Z) : World Z := (setup petsc 5 w_new).1.

(** The object itself, once set up. *)
Definition s_setup (petsc : Petsc Z) : InvertableOperator Z :=
  set_up petsc 5 (new_InvertableOperator bout0 None None).

(** The shell matrix that [setup()] makes for it. *)
Definition A5 : Mat :=
  {| mat_rows := 2; mat_cols := 2; mat_ctx := 5;
     mat_ops := [(MATOP_MULT, FunctionWrapper)] |}.

(** A library whose solver stops at once, with code 0, the right-hand side
    as solution and reason 2, and where the call [c] fails with code 1. *)
Definition petsc_direct_without (c : PetscCall) : Petsc Z :=
  {| ierr_of := λ _ c', if decide (c' = c) then 1%Z else 0%Z;
     vec_init := λ _, 0%Z;
     heap_init := λ _, 0%Z;
     ksp_run := λ _ b x, KspDone 0%Z b 2%Z |}.

(** A slice of two by two elements, with the values 10, 11, 20, 21. *)
Definition slice : Bounds := {| xstart := 1; xend := 2; ystart := 0; LocalNz := 2 |}.

Definition err (jx jy jz : Z) : Z := (jx * 10 + jz)%Z.

End Demo.

(** * The field marshaller *)

Section Calls.

Context {scalar : Type}.

Lemma no_error_mono (petsc : Petsc scalar) (cs cs' : list PetscCall) :
  no_error petsc cs → Forall (λ c, c ∈ cs) cs' → no_error petsc cs'.
Proof.
  intros Hok Hsub tr c Hc. apply Hok.
  by apply (proj1 (Forall_forall _ _) Hsub).
Qed.

End Calls.

(** Discharges [no_error petsc cs'] from a hypothesis about more calls. *)
Ltac calls_ok :=
  eapply no_error_mono; [eassumption | apply (bool_decide_unpack _); vm_compute; exact I].


Section Marshalling.

Context {scalar : Type}.
Implicit Types (d : list scalar) (v : Vec scalar) (range : list nat).

Lemma pack_loop_Some d range vals :
  mapM (λ i, d !! i) range = Some vals →
  ∀ counter v,
    counter + length range ≤ length v →
    pack_loop d range counter v
    = Some (take counter v ++ vals ++ drop (counter + length range) v).
Proof.
  revert vals. induction range as [|i range IH]; intros vals Hm counter v Hlen.
  - cbn in Hm. injection Hm as <-. cbn.
    rewrite Nat.add_0_r. by rewrite take_drop.
  - cbn in Hm. destruct (d !! i) as [x|] eqn:Hi; [|done]. cbn in Hm.
    destruct (mapM _ range) as [vals'|] eqn:Hr; [|done]. cbn in Hm.
    injection Hm as <-. cbn [pack_loop length] in *. rewrite Hi.
    rewrite decide_True by lia.
    rewrite (IH vals' eq_refl) by (rewrite length_insert; lia).
    f_equal.
    rewrite (take_S_r _ _ x) by (apply list_lookup_insert_eq; lia).
    rewrite take_insert_ge by lia.
    rewrite drop_insert_lt by lia.
    rewrite <- app_assoc. cbn. by rewrite Nat.add_succ_r.
Qed.

Lemma unpack_loop_Some v range :
  ∀ counter d,
    counter + length range ≤ length v →
    Forall (λ i, i < length d) range →
    ∃ d', unpack_loop v range counter d = Some d'
        ∧ length d' = length d
        ∧ (∀ j, j ∉ range → d' !! j = d !! j)
        ∧ (NoDup range → ∀ k i, range !! k = Some i → d' !! i = v !! (counter + k)).
Proof.
  induction range as [|i range IH]; intros counter d Hlen Hin.
  - exists d. cbn. repeat split; try done.
  - cbn [length] in Hlen. apply Forall_cons in Hin as [Hi Hin].
    destruct (lookup_lt_is_Some_2 v counter) as [x Hx]; [lia|].
    destruct (IH (S counter) (<[i:=x]> d)) as (d' & Hrun & Hl & Hout & Hcells).
    { lia. }
    { by rewrite length_insert. }
    exists d'. cbn [unpack_loop]. rewrite Hx, decide_True by done.
    rewrite length_insert in Hl. repeat split; try done.
    + intros j Hj. apply not_elem_of_cons in Hj as [Hne Hj].
      rewrite Hout by done. by rewrite list_lookup_insert_ne.
    + intros Hnd k i' Hk. apply NoDup_cons in Hnd as [Hni Hnd].
      destruct k as [|k]; cbn in Hk.
      * injection Hk as <-. rewrite Hout by done.
        rewrite list_lookup_insert_eq by done. by rewrite Nat.add_0_r.
      * rewrite (Hcells Hnd k i' Hk). f_equal. lia.
Qed.

Lemma mapM_lookup_length d range vals :
  mapM (λ i, d !! i) range = Some vals → length vals = length range.
Proof. intros H. symmetry. by eapply length_mapM. Qed.

(** The elements of an allocated field on a sound mesh are all there. *)
Lemma elements_allocated (m : Mesh) (f : Field scalar) :
  mesh_ok m → allocated_on m f →
  ∃ vals, elements f = Some vals ∧ length vals = length (cells m).
Proof.
  intros [_ Hin] [<- (d & Hd & Hl)]. unfold elements. rewrite Hd. cbn.
  assert (is_Some (mapM (λ i, d !! i) (cells (getMesh f)))) as [vals Hv].
  { apply mapM_is_Some. eapply Forall_impl; [exact Hin|].
    intros i Hi. apply lookup_lt_is_Some_2. by rewrite Hl. }
  exists vals. split; [done|]. by eapply mapM_lookup_length.
Qed.

Lemma pack_loop_None d range vals :
  mapM (λ i, d !! i) range = Some vals →
  ∀ counter v,
    counter ≤ length v → length v < counter + length range →
    pack_loop d range counter v = None.
Proof.
  revert vals. induction range as [|i range IH]; intros vals Hm counter v Hle Hlt.
  - cbn in Hlt. lia.
  - cbn in Hm. destruct (d !! i) as [x|] eqn:Hi; [|done]. cbn in Hm.
    destruct (mapM _ range) as [vals'|] eqn:Hr; [|done].
    cbn [pack_loop length] in *. rewrite Hi. case_decide; [|done].
    apply (IH vals' eq_refl); rewrite length_insert; lia.
Qed.

(** What [fieldToPetscVec] does when the accessors succeed and the buffer is
    at least as long as the field has elements. *)
Lemma fieldToPetscVec_Normal (petsc : Petsc scalar) (m : Mesh) (f : Field scalar)
    (buf : Vec scalar) (w : World scalar) :
  mesh_ok m →
  no_error petsc [VecGetArray; VecRestoreArray] →
  allocated_on m f →
  length (cells m) ≤ length buf →
  ∃ vals,
    elements f = Some vals ∧ length vals = length (cells m) ∧
    fieldToPetscVec petsc f buf w
    = (log (Call VecRestoreArray) (log (Call VecGetArray) w),
       vals ++ drop (length (cells m)) buf, Normal ()).
Proof.
  intros Hm Hok Hf Hlen.
  destruct (elements_allocated m f Hm Hf) as (vals & Hv & Hl).
  exists vals. split; [done|]. split; [done|].
  destruct Hf as [<- (d & Hd & Hdl)].
  unfold elements in Hv. rewrite Hd in Hv. cbn in Hv.
  unfold fieldToPetscVec, petsc_call.
  rewrite !Hok by set_solver. rewrite !decide_True by done. rewrite Hd.
  by rewrite (pack_loop_Some d _ vals Hv 0 buf) by (cbn; lia).
Qed.

(** What [petscVecToField] does when the accessors succeed and the buffer is
    at least as long as the field has elements. *)
Lemma petscVecToField_Normal (petsc : Petsc scalar) (m : Mesh) (g : Field scalar)
    (buf : Vec scalar) (w : World scalar) :
  mesh_ok m →
  no_error petsc [VecGetArrayRead; VecRestoreArrayRead] →
  allocated_on m g →
  length (cells m) ≤ length buf →
  ∃ g',
    petscVecToField petsc buf g w
    = (log (Call VecRestoreArrayRead) (log (Call VecGetArrayRead) w), g', Normal ()) ∧
    allocated_on m g' ∧
    elements g' = Some (take (length (cells m)) buf) ∧
    (∀ k i, cells m !! k = Some i → Field_at g' i = buf !! k) ∧
    (∀ j, j ∉ cells m → Field_at g' j = Field_at g j).
Proof.
  intros [Hnd Hin] Hok [<- (d & Hd & Hdl)] Hlen.
  destruct (unpack_loop_Some buf (cells (getMesh g)) 0 d)
    as (d' & Hrun & Hl' & Hout & Hcells); [cbn; lia | by rewrite Hdl |].
  exists {| getMesh := getMesh g; data := Some d' |}.
  unfold petscVecToField, petsc_call.
  rewrite !Hok by set_solver. rewrite !decide_True by done. rewrite Hd, Hrun.
  split; [done|]. split; [|split; [|split]].
  - split; [done|]. exists d'. split; [done|]. by rewrite Hl'.
  - unfold elements. cbn. apply mapM_Some_2, Forall2_same_length_lookup_2.
    { rewrite length_take. lia. }
    intros k i y Hk Hy. rewrite (Hcells Hnd k i Hk). cbn.
    by rewrite lookup_take_Some in Hy; destruct Hy.
  - intros k i Hk. unfold Field_at. cbn. by rewrite (Hcells Hnd k i Hk).
  - intros j Hj. unfold Field_at. cbn. rewrite Hd. cbn. by apply Hout.
Qed.

(** C1.  Round-trip marshalling: packing an allocated field [f] with
    [fieldToPetscVec] into a buffer of the field's local size and unpacking
    that buffer with [petscVecToField] into an allocated field [g] of the
    same shape both succeed, and give a [g'] equal to [f] at every local
    index.  The buffer holds the elements of [f] in iteration order (entry
    [k] is the element at the [k]-th index visited), [g'] receives entry [k]
    at that same index, and each entry is a copy of the scalar. *)
Theorem marshalling_round_trip (petsc : Petsc scalar) (m : Mesh)
    (f g : Field scalar) (buf : Vec scalar) (w : World scalar) :
  mesh_ok m →
  no_error petsc [VecGetArray; VecRestoreArray; VecGetArrayRead; VecRestoreArrayRead] →
  allocated_on m f →
  allocated_on m g →
  length buf = length (cells m) →
  ∃ w1 w2 buf' g',
    fieldToPetscVec petsc f buf w = (w1, buf', Normal ()) ∧
    petscVecToField petsc buf' g w1 = (w2, g', Normal ()) ∧
    elements f = Some buf' ∧
    (∀ k i, cells m !! k = Some i →
            buf' !! k = Field_at f i ∧ Field_at g' i = buf' !! k) ∧
    allocated_on m g' ∧
    elements g' = elements f ∧
    (∀ i, i ∈ cells m → Field_at g' i = Field_at f i).
Proof.
  intros Hm Hok Hf Hg Hlen.
  destruct (fieldToPetscVec_Normal petsc m f buf w Hm) as (vals & Hv & Hl & Hpack);
    [calls_ok | done | lia |].
  rewrite <- Hlen, drop_all, app_nil_r in Hpack.
  destruct (petscVecToField_Normal petsc m g vals
              (log (Call VecRestoreArray) (log (Call VecGetArray) w)) Hm)
    as (g' & Hunpack & Hg' & He & Hat & _);
    [calls_ok | done | lia |].
  rewrite <- Hl, firstn_all in He.
  assert (∀ k i, cells m !! k = Some i → vals !! k = Field_at f i) as Hord.
  { intros k i Hk. destruct Hf as [<- (d & Hd & _)].
    unfold elements in Hv. rewrite Hd in Hv. cbn in Hv.
    apply mapM_Some_1 in Hv. unfold Field_at. rewrite Hd. cbn.
    destruct (Forall2_lookup_l _ _ _ _ _ Hv Hk) as (y & Hy & Hiy). congruence. }
  eexists _, _, vals, g'. repeat split; try done.
  - by apply Hord.
  - by apply Hat.
  - by destruct Hg'.
  - by destruct Hg'.
  - congruence.
  - intros i Hi. apply list_elem_of_lookup in Hi as [k Hk].
    rewrite (Hat k i Hk). by apply Hord.
Qed.

(** C6, as the code has it.  Neither [fieldToPetscVec] nor [petscVecToField]
    compares the length of the buffer with the number of elements of the
    field, and neither ever throws.  With working accessors and an allocated
    field: a buffer at least as long as the field has elements is accepted,
    its first entries are the copies, in iteration order, and its remaining
    entries are neither written nor read; with a shorter buffer
    [fieldToPetscVec] indexes past the end of the buffer. *)
Theorem marshalling_has_no_length_check (petsc : Petsc scalar)
    (f : Field scalar) (buf : Vec scalar) (w : World scalar) :
  (∀ e, (fieldToPetscVec petsc f buf w).2 ≠ Throw e) ∧
  (∀ e, (petscVecToField petsc buf f w).2 ≠ Throw e) ∧
  (mesh_ok (getMesh f) → allocated_on (getMesh f) f →
   no_error petsc [VecGetArray; VecRestoreArray; VecGetArrayRead; VecRestoreArrayRead] →
   let n := length (cells (getMesh f)) in
   (n ≤ length buf →
      (∃ w1 vals, elements f = Some vals ∧
         fieldToPetscVec petsc f buf w = (w1, vals ++ drop n buf, Normal ())) ∧
      (∃ w1 f', petscVecToField petsc buf f w = (w1, f', Normal ()) ∧
         elements f' = Some (take n buf))) ∧
   (length buf < n → (fieldToPetscVec petsc f buf w).2 = Undefined)).
Proof.
  split; [|split].
  - intros e. unfold fieldToPetscVec, petsc_call.
    repeat (case_decide || case_match || simplify_eq/=); done.
  - intros e. unfold petscVecToField, petsc_call.
    repeat (case_decide || case_match || simplify_eq/=); done.
  - intros Hm Hf Hok n. split.
    + intros Hlen. split.
      * destruct (fieldToPetscVec_Normal petsc _ f buf w Hm) as (vals & Hv & _ & Hpack);
          [calls_ok | done | done |].
        by eexists _, vals.
      * destruct (petscVecToField_Normal petsc _ f buf w Hm) as (f' & Hun & _ & He & _);
          [calls_ok | done | done |].
        by eexists _, f'.
    + intros Hlen.
      destruct (elements_allocated _ f Hm Hf) as (vals & Hv & Hl).
      destruct Hf as [_ (d & Hd & Hdl)].
      unfold elements in Hv. rewrite Hd in Hv. cbn in Hv.
      unfold fieldToPetscVec, petsc_call.
      rewrite !Hok by set_solver. rewrite !decide_True by done. rewrite Hd.
      by rewrite (pack_loop_None d _ vals Hv 0 buf) by (cbn; fold n; lia).
Qed.

End Marshalling.

(** C1 at the demo instance: the field (10, 20) goes through a buffer of
    length two and arrives in a field that held (0, 0). *)
Lemma marshalling_round_trip_demo :
  ∃ w1 w2 buf' g',
    fieldToPetscVec Demo.petsc0 (Demo.field 10 20) [0; 0]%Z Demo.w0
      = (w1, buf', Normal ()) ∧
    petscVecToField Demo.petsc0 buf' (Demo.field 0 0) w1 = (w2, g', Normal ()) ∧
    elements (Demo.field 10 20) = Some buf' ∧
    (∀ k i, cells Demo.m2 !! k = Some i →
            buf' !! k = Field_at (Demo.field 10 20) i ∧ Field_at g' i = buf' !! k) ∧
    allocated_on Demo.m2 g' ∧
    elements g' = elements (Demo.field 10 20) ∧
    (∀ i, i ∈ cells Demo.m2 → Field_at g' i = Field_at (Demo.field 10 20) i).
Proof.
  apply (marshalling_round_trip Demo.petsc0 Demo.m2).
  - split; apply (bool_decide_unpack _); vm_compute; exact I.
  - by intros tr c _.
  - split; [done|]. by exists [10; 20]%Z.
  - split; [done|]. by exists [0; 0]%Z.
  - done.
Defined.

(** C6 at the demo instance: a buffer of three entries and a field of two
    elements.  The specification asks for an abort; both calls return
    normally, and the third entry is left as it was. *)
Lemma marshalling_accepts_longer_buffer :
  length [7; 8; 9]%Z ≠ length (cells (getMesh (Demo.field 10 20))) ∧
  (fieldToPetscVec Demo.petsc0 (Demo.field 10 20) [7; 8; 9]%Z Demo.w0).2 = Normal () ∧
  (fieldToPetscVec Demo.petsc0 (Demo.field 10 20) [7; 8; 9]%Z Demo.w0).1.2
    = [20; 10; 9]%Z ∧
  (petscVecToField Demo.petsc0 [7; 8; 9]%Z (Demo.field 10 20) Demo.w0).2 = Normal () ∧
  ¬ (length [7; 8; 9]%Z ≠ length (cells (getMesh (Demo.field 10 20))) →
     ∃ e, (fieldToPetscVec Demo.petsc0 (Demo.field 10 20) [7; 8; 9]%Z Demo.w0).2
          = Throw e).
Proof.
  repeat split; try done.
  intros H. destruct H as [e He]; [done|]. by vm_compute in He.
Qed.

(** C6, amended, at the demo instance. *)
Lemma marshalling_has_no_length_check_demo :
  (∃ w1 vals, elements (Demo.field 10 20) = Some vals ∧
     fieldToPetscVec Demo.petsc0 (Demo.field 10 20) [7; 8; 9]%Z Demo.w0
     = (w1, vals ++ drop 2 [7; 8; 9]%Z, Normal ())) ∧
  (∃ w1 f', petscVecToField Demo.petsc0 [7; 8; 9]%Z (Demo.field 10 20) Demo.w0
            = (w1, f', Normal ()) ∧
     elements f' = Some (take 2 [7; 8; 9]%Z)).
Proof.
  destruct (marshalling_has_no_length_check Demo.petsc0 (Demo.field 10 20)
              [7; 8; 9]%Z Demo.w0) as (_ & _ & H).
  apply H.
  - split; apply (bool_decide_unpack _); vm_compute; exact I.
  - split; [done|]. by exists [10; 20]%Z.
  - by intros tr c _.
  - cbn. lia.
Defined.

(** * The solver session *)

Section Session.
Context {scalar : Type}.
Implicit Types (w : World scalar) (s : InvertableOperator scalar) (petsc : Petsc scalar).
Implicit Types (x b : Field scalar) (v : Vec scalar) (bout : Bout scalar).
Implicit Types (g : function_signature scalar).

Lemma bind_unfold {A B} (m : M scalar A) (f : A → M scalar B) w :
  (m ≫= f) w = match m w with
               | (w1, Normal a) => f a w1
               | (w1, ChkErr e) => (w1, ChkErr e)
               | (w1, Throw e) => (w1, Throw e)
               | (w1, Undefined) => (w1, Undefined)
               end.
Proof. unfold mbind, M_bind, bind. destruct (m w) as [w1 [a|e|e|]]; done. Qed.

Lemma bind_get_this {B} this (f : InvertableOperator scalar → M scalar B) w s :
  objects w !! this = Some s → (get_this this ≫= f) w = f s w.
Proof. intros H. rewrite bind_unfold. unfold get_this. by rewrite H. Qed.

Lemma count_cells_length (f : Field scalar) :
  count_cells f = length (cells (getMesh f)).
Proof.
  unfold count_cells.
  assert (∀ l n, foldl (λ nlocal (_ : nat), S nlocal) n l = n + length l) as H.
  { induction l as [|x l IH]; intros n; cbn; [lia|]. rewrite IH. lia. }
  by rewrite H.
Qed.

Lemma petsc_method_step {B} petsc c this eff (k : M scalar B) w s s' :
  objects w !! this = Some s → eff s = Some s' →
  (petsc_method petsc c this eff ≫= λ ierr, CHKERRQ ierr ≫= λ _, k) w
  = if decide (ierr_of petsc (trace w) c = 0%Z)
    then k (store this s' (log (Call c) w))
    else (log (Call c) w, ChkErr (ierr_of petsc (trace w) c)).
Proof.
  intros Hs He. rewrite bind_unfold. unfold petsc_method, petsc_call.
  rewrite Hs. cbn. rewrite He.
  case_decide as Hi.
  - rewrite bind_unfold. unfold CHKERRQ. by rewrite decide_True.
  - rewrite bind_unfold. unfold CHKERRQ. by rewrite decide_False.
Qed.

Lemma store_lookup this s w : objects (store this s w) !! this = Some s.
Proof. apply lookup_insert_eq. Qed.

Ltac setup_fails :=
  match goal with
  | H : ierr_of ?petsc ?tr ?c ≠ 0%Z |- _ =>
      cbn in *; rewrite ?decide_False by (intros ?; congruence);
      rewrite decide_True by exact H; cbn;
      split; [reflexivity|]; split; [by rewrite <- ?app_assoc|];
      eexists; split; [first [apply lookup_insert_eq | eassumption]|];
      by repeat split
  end.

(** [setup()] on a session that is not set up, by the codes that PETSc
    returns: it leaves through [CHKERRQ] at the first call that fails, and
    when none fails it sets the flag and runs off the end of its body. *)
Lemma setup_cases petsc this w s :
  objects w !! this = Some s → doneSetup s = false →
  match list_find (λ ierr, ierr ≠ 0%Z) (answers petsc (trace w) setup_calls) with
  | Some (n, ierr) =>
      (setup petsc this w).2 = ChkErr ierr ∧
      trace (setup petsc this w).1 = trace w ++ map Call (take (S n) setup_calls) ∧
      ∃ s', objects (setup petsc this w).1 !! this = Some s' ∧
            doneSetup s' = false ∧ operatorFunction s' = operatorFunction s ∧
            localmesh s' = localmesh s
  | None =>
      setup petsc this w
      = ({| objects := <[this := set_up petsc this s]> (objects w);
            trace := trace w ++ map Call setup_calls |}, Undefined)
  end.
Proof.
  intros Hs Hd. unfold setup. rewrite (bind_get_this _ _ _ s Hs). rewrite Hd.
  rewrite count_cells_length. cbn [Field_on getMesh].
  erewrite petsc_method_step; [|exact Hs|reflexivity].
  case_decide; [|setup_fails].
  do 7 (erewrite petsc_method_step; [|apply store_lookup|reflexivity];
        case_decide; [|setup_fails]).
  erewrite bind_get_this by apply store_lookup.
  cbn in *. rewrite ?decide_False by (intros ?; congruence). cbn.
  rewrite bind_unfold. unfold set_this, undefined, store, log. cbn.
  rewrite !insert_insert_eq. by rewrite <- !app_assoc.
Qed.

Lemma all_succeed_find petsc tr cs :
  all_succeed petsc tr cs ↔
  list_find (λ ierr, ierr ≠ 0%Z) (answers petsc tr cs) = None.
Proof.
  unfold all_succeed. rewrite list_find_None. apply Forall_proper; [|done].
  intros ierr. split; [by intros -> ?|]. intros Hn. by destruct (decide (ierr = 0%Z)).
Qed.

Lemma no_error_all_succeed petsc tr cs : no_error petsc cs → all_succeed petsc tr cs.
Proof.
  unfold all_succeed. revert tr. induction cs as [|c cs IH]; intros tr Hok; [done|].
  cbn. constructor.
  - apply Hok. by left.
  - apply IH. intros tr' c' Hc'. apply Hok. by right.
Qed.

(** A [setup()] during which no call fails. *)
Lemma setup_all_succeed petsc this w s :
  objects w !! this = Some s → doneSetup s = false →
  all_succeed petsc (trace w) setup_calls →
  setup petsc this w
  = ({| objects := <[this := set_up petsc this s]> (objects w);
        trace := trace w ++ map Call setup_calls |}, Undefined).
Proof.
  intros Hs Hd Hok. pose proof (setup_cases petsc this w s Hs Hd) as H.
  apply all_succeed_find in Hok. by rewrite Hok in H.
Qed.

(** A [setup()] during which a call fails. *)
Lemma setup_some_fails petsc this w s :
  objects w !! this = Some s → doneSetup s = false →
  ¬ all_succeed petsc (trace w) setup_calls →
  ∃ n ierr s',
    list_find (λ ierr, ierr ≠ 0%Z) (answers petsc (trace w) setup_calls) = Some (n, ierr) ∧
    ierr ≠ 0%Z ∧
    (setup petsc this w).2 = ChkErr ierr ∧
    trace (setup petsc this w).1 = trace w ++ map Call (take (S n) setup_calls) ∧
    objects (setup petsc this w).1 !! this = Some s' ∧
    doneSetup s' = false ∧ operatorFunction s' = operatorFunction s ∧
    localmesh s' = localmesh s.
Proof.
  intros Hs Hd Hfail. pose proof (setup_cases petsc this w s Hs Hd) as H.
  destruct (list_find _ _) as [[n ierr]|] eqn:Hfind.
  - destruct H as (Hout & Htr & s' & Hs' & Hrest).
    exists n, ierr, s'. split; [done|]. split; [|done].
    by apply list_find_Some in Hfind as (_ & Hne & _).
  - by apply all_succeed_find in Hfind.
Qed.

(** *** Calls that leave the objects alone *)

Lemma unchanged_bind {A B} (m : M scalar A) (f : A → M scalar B) :
  unchanged m → (∀ a, unchanged (f a)) → unchanged (m ≫= f).
Proof.
  intros Hm Hf w. rewrite bind_unfold. specialize (Hm w).
  destruct (m w) as [w1 [a|e|e|]]; cbn in *; [|done..].
  by rewrite Hf.
Qed.

Lemma unchanged_get_this this : unchanged (get_this (scalar:=scalar) this).
Proof. intros w. unfold get_this. by case_match. Qed.

Lemma unchanged_ret {A} (a : A) : unchanged (mret a : M scalar A).
Proof. done. Qed.

Lemma fieldToPetscVec_objects petsc x v w :
  objects (fieldToPetscVec petsc x v w).1.1 = objects w.
Proof. unfold fieldToPetscVec, petsc_call. by repeat case_match. Qed.

Lemma petscVecToField_objects petsc v x w :
  objects (petscVecToField petsc v x w).1.1 = objects w.
Proof. unfold petscVecToField, petsc_call. by repeat case_match. Qed.

Lemma unchanged_pack_stmt petsc x v : unchanged (pack_stmt petsc x v).
Proof.
  intros w. unfold pack_stmt, dropping_code.
  pose proof (fieldToPetscVec_objects petsc x v w) as H.
  destruct (fieldToPetscVec petsc x v w) as [[w1 v'] st]. by destruct st.
Qed.

Lemma unchanged_unpack_stmt petsc v x : unchanged (unpack_stmt petsc v x).
Proof.
  intros w. unfold unpack_stmt, dropping_code.
  pose proof (petscVecToField_objects petsc v x w) as H.
  destruct (petscVecToField petsc v x w) as [[w1 x'] st]. by destruct st.
Qed.

Lemma unchanged_allocated_Field petsc m : unchanged (allocated_Field petsc m).
Proof. done. Qed.

Lemma unchanged_operator_call this x : unchanged (operator_call this x).
Proof.
  apply unchanged_bind; [apply unchanged_get_this|]. intros s. apply unchanged_ret.
Qed.

Lemma functionWrapper_objects petsc A v1 v2 w :
  objects (functionWrapper petsc A v1 v2 w).1.1 = objects w.
Proof.
  unfold functionWrapper. cbn. case_decide; [|done].
  destruct (objects w !! mat_ctx A) as [s|]; [|done].
  match goal with |- context [?m (log ?e w)] =>
    assert (unchanged m) as Hm
  end.
  { repeat (apply unchanged_bind; [|intros ?]);
      auto using unchanged_allocated_Field, unchanged_unpack_stmt,
        unchanged_get_this, unchanged_ret, unchanged_pack_stmt. }
  match goal with |- context [?m (log ?e w)] =>
    specialize (Hm (log e w)); destruct (m (log e w)) as [w1 [a|e'|e'|]]
  end; done.
Qed.

Lemma MatMult_shell_objects petsc A v1 v2 w :
  objects (MatMult_shell petsc A v1 v2 w).1.1 = objects w.
Proof.
  unfold MatMult_shell. destruct (registered MATOP_MULT A) as [[]|]; [|done].
  apply functionWrapper_objects.
Qed.

Lemma ksp_iterate_objects mult r :
  (∀ v1 v2 w, objects (mult v1 v2 w).1.1 = objects w) →
  ∀ w, objects (ksp_iterate mult r w).1 = objects w.
Proof.
  intros Hmult. induction r as [v1 v2 k IH|ierr x reason]; intros w; [|done].
  cbn. specialize (Hmult v1 v2 w).
  destruct (mult v1 v2 w) as [[w1 v2'] [e|e|e|]]; cbn in *; try done.
  - by rewrite IH.
  - by rewrite IH.
Qed.

(** *** Calls that leave a data member alone

    The member is any that the assignments to the PETSc handles do not
    touch: the flag, the operator function, the mesh. *)

Section Kept.

Context {X : Type} (proj : InvertableOperator scalar → X).
Hypothesis proj_with_rhs : ∀ v s, proj (with_rhs v s) = proj s.
Hypothesis proj_with_lhs : ∀ v s, proj (with_lhs v s) = proj s.
Hypothesis proj_with_ksp : ∀ k s, proj (with_ksp k s) = proj s.

Lemma unchanged_keeps {A} this (m : M scalar A) :
  unchanged m → keeps proj this m.
Proof. intros H w. unfold member. by rewrite H. Qed.

Lemma keeps_bind {A B} this (m : M scalar A) (f : A → M scalar B) :
  keeps proj this m → (∀ a, keeps proj this (f a)) → keeps proj this (m ≫= f).
Proof.
  intros Hm Hf w. rewrite bind_unfold. specialize (Hm w).
  destruct (m w) as [w1 [a|e|e|]]; cbn in *; [|done..].
  by rewrite Hf.
Qed.

Lemma keeps_modify_this this f :
  (∀ s, proj (f s) = proj s) → keeps proj this (modify_this this f).
Proof.
  intros Hf w. unfold modify_this. rewrite bind_unfold. unfold get_this, member.
  destruct (objects w !! this) as [s|] eqn:Hs; cbn; [|by rewrite Hs].
  rewrite lookup_insert_eq. cbn. by rewrite Hf.
Qed.

Lemma keeps_ksp_solve petsc this : keeps proj this (ksp_solve petsc this).
Proof.
  unfold ksp_solve.
  apply keeps_bind; [apply unchanged_keeps, unchanged_get_this|].
  intros s. repeat case_match; try done.
  apply keeps_bind.
  - apply unchanged_keeps. intros w.
    rewrite ksp_iterate_objects; [done|]. apply MatMult_shell_objects.
  - intros [[ierr x'] reason].
    apply keeps_bind; [|done]. apply keeps_modify_this.
    intros s'. by rewrite proj_with_ksp, proj_with_lhs.
Qed.

Lemma keeps_invert petsc bout this b :
  keeps proj this (invert petsc bout this b).
Proof.
  unfold invert, ASSERT2, ksp_get_reason.
  repeat first
    [ apply keeps_ksp_solve
    | apply keeps_modify_this; done
    | apply unchanged_keeps;
      first [ apply unchanged_get_this | apply unchanged_pack_stmt
            | apply unchanged_unpack_stmt | apply unchanged_allocated_Field ]
    | apply keeps_bind; [|intros ?]
    | case_match
    | done ].
Qed.

Lemma keeps_operator_call this x : keeps proj this (operator_call this x).
Proof. apply unchanged_keeps, unchanged_operator_call. Qed.

Lemma keeps_returned_T bout this m :
  keeps proj this m → keeps proj this (returned_T bout m).
Proof.
  intros H w. unfold returned_T. specialize (H w).
  destruct (m w) as [w1 [a|e|e|]]; done.
Qed.

Lemma keeps_verify `{BoutRealOps scalar} petsc bout this b tol :
  keeps proj this (verify petsc bout this b tol).
Proof.
  unfold verify. case_decide; [|done].
  apply keeps_bind; [apply keeps_returned_T, keeps_invert|].
  intros x. apply keeps_bind; [apply keeps_operator_call|].
  intros y. by repeat case_match.
Qed.

End Kept.

Lemma keeps_flag_setOperatorFunction this g :
  keeps doneSetup this (setOperatorFunction this g).
Proof. by apply (keeps_modify_this doneSetup this (with_operatorFunction g)). Qed.

(** *** Sequences of member calls *)

Lemma setup_when_done petsc this w :
  flag this w = Some true → setup petsc this w = (w, Throw SetupTwice).
Proof.
  unfold flag, member. intros H. destruct (objects w !! this) as [s|] eqn:Hs; [|done].
  injection H as Hd. unfold setup. rewrite (bind_get_this _ _ _ s Hs). by rewrite Hd.
Qed.

Lemma setup_sets_flag petsc this w s :
  objects w !! this = Some s → doneSetup s = false →
  all_succeed petsc (trace w) setup_calls →
  flag this (setup petsc this w).1 = Some true.
Proof.
  intros Hs Hd Hok. rewrite (setup_all_succeed petsc this w s Hs Hd Hok).
  unfold flag, member. cbn. by rewrite lookup_insert_eq.
Qed.

Lemma setup_leaves_flag petsc this w s :
  objects w !! this = Some s → doneSetup s = false →
  ¬ all_succeed petsc (trace w) setup_calls →
  flag this (setup petsc this w).1 = Some false.
Proof.
  intros Hs Hd Hfail.
  destruct (setup_some_fails petsc this w s Hs Hd Hfail)
    as (n & ierr & s' & _ & _ & _ & _ & Hs' & Hd' & _).
  unfold flag, member. by rewrite Hs', <- Hd'.
Qed.



Lemma after_call_flag_false `{BoutRealOps scalar} petsc bout this c w :
  is_CallSetup c = false →
  flag this w = Some false → flag this (after_call petsc bout this c w) = Some false.
Proof.
  intros Hc Hf. destruct c; cbn; try done.
  - unfold flag. by rewrite keeps_flag_setOperatorFunction.
  - unfold flag. by rewrite keeps_operator_call.
  - unfold flag. by rewrite (keeps_operator_call doneSetup this input).
  - unfold flag. by rewrite keeps_invert.
  - unfold flag. by rewrite keeps_verify.
Qed.

Lemma invert_when_not_done petsc bout this b w :
  flag this w = Some false → invert petsc bout this b w = (w, Throw InvertBeforeSetup).
Proof.
  unfold flag, member. intros H. destruct (objects w !! this) as [s|] eqn:Hs; [|done].
  injection H as Hd. unfold invert. rewrite (bind_get_this _ _ _ s Hs). by rewrite Hd.
Qed.


(** C4.  On a session that was constructed and on which [setup()] was never
    called, whatever other member calls were made, [invert(b)] throws the
    use-before-setup exception and changes nothing: the objects are as they
    were and no PETSc call is made. *)
Theorem invert_before_setup_fails `{BoutRealOps scalar} (petsc : Petsc scalar)
    (bout : Bout scalar) (this : nat) (func : option (function_signature scalar))
    (lm : option Mesh) (w0 : World scalar) (cs : list (MemberCall scalar)) (b : Field scalar) :
  Forall (λ c, is_CallSetup c = false) cs →
  let w := after_calls petsc bout this cs (construct bout this func lm w0).1 in
  invert petsc bout this b w = (w, Throw InvertBeforeSetup) ∧
  what InvertBeforeSetup
  = "Trying to call invert on an InvertableOperator instance that has not been setup.".
Proof.
  intros Hcs w. split; [|done]. apply invert_when_not_done. subst w.
  assert (flag this (construct bout this func lm w0).1 = Some false) as Hf.
  { unfold flag, member. cbn. by rewrite lookup_insert_eq. }
  revert Hf. generalize (construct bout this func lm w0).1.
  induction Hcs as [|c cs Hc Hcs IH]; intros w Hf; [exact Hf|].
  cbn. apply IH. by apply after_call_flag_false.
Qed.

(** C7.  An object constructed without a function applies the identity:
    [apply(f)] and [operator()(f)] return [f]. *)
Theorem default_operator_is_identity (bout : Bout scalar) (this : nat)
    (lm : option Mesh) (w0 : World scalar) (f : Field scalar) :
  let w := (construct bout this None lm w0).1 in
  apply this f w = (w, Normal f) ∧
  operator_call this f w = (w, Normal f) ∧
  operatorFunction (new_InvertableOperator bout None lm) f = f.
Proof.
  intros w. assert (operator_call this f w = (w, Normal f)) as H.
  { unfold operator_call.
    by rewrite (bind_get_this _ _ _ (new_InvertableOperator bout None lm))
      by apply lookup_insert_eq. }
  done.
Qed.

(** C10.  From a session that is not set up: the flag is set exactly when
    none of the eight PETSc calls of [setup()] fails, and then all eight
    have been made before it.  When a call fails, [setup()] leaves through
    [CHKERRQ]; the flag is then still unset and the function and the mesh
    are as they were, [invert()] still throws the use-before-setup
    exception, and a new [setup()] is not refused as a second one: it sets
    the flag when PETSc then reports no error. *)
Theorem failed_setup_leaves_unset (petsc : Petsc scalar) (bout : Bout scalar)
    (this : nat) (w : World scalar) (s : InvertableOperator scalar) :
  objects w !! this = Some s →
  doneSetup s = false →
  let w1 := (setup petsc this w).1 in
  (flag this w1 = Some true ↔ all_succeed petsc (trace w) setup_calls) ∧
  (flag this w1 = Some true → trace w1 = trace w ++ map Call setup_calls) ∧
  (¬ all_succeed petsc (trace w) setup_calls →
     ∃ ierr, ierr ≠ 0%Z ∧ (setup petsc this w).2 = ChkErr ierr) ∧
  (∀ ierr, (setup petsc this w).2 = ChkErr ierr →
     flag this w1 = Some false ∧
     member operatorFunction this w1 = Some (operatorFunction s) ∧
     member localmesh this w1 = Some (localmesh s) ∧
     (∀ petsc' b, invert petsc' bout this b w1 = (w1, Throw InvertBeforeSetup)) ∧
     (∀ petsc', (setup petsc' this w1).2 ≠ Throw SetupTwice) ∧
     (∀ petsc', all_succeed petsc' (trace w1) setup_calls →
        flag this (setup petsc' this w1).1 = Some true)).
Proof.
  intros Hs Hd w1. subst w1.
  pose proof (setup_cases petsc this w s Hs Hd) as Hrun.
  destruct (list_find _ _) as [[n e]|] eqn:Hfind.
  - destruct Hrun as (Hout & Htr & s' & Hs' & Hd' & Hop' & Hlm').
    assert (¬ all_succeed petsc (trace w) setup_calls) as Hfail.
    { intros Hok. apply all_succeed_find in Hok. by rewrite Hok in Hfind. }
    assert (flag this (setup petsc this w).1 = Some false) as Hf.
    { unfold flag, member. by rewrite Hs', <- Hd'. }
    split; [by rewrite Hf|]. split; [by rewrite Hf|]. split.
    { intros _. exists e. split; [|done].
      by apply list_find_Some in Hfind as (_ & Hne & _). }
    intros ierr _. split; [done|]. split; [|split; [|split; [|split]]].
    + unfold member. by rewrite Hs', <- Hop'.
    + unfold member. by rewrite Hs', <- Hlm'.
    + intros petsc' b. by apply invert_when_not_done.
    + intros petsc'. pose proof (setup_cases petsc' this _ s' Hs' Hd') as Hrun'.
      destruct (list_find (λ ierr, ierr ≠ 0%Z) (answers petsc' _ _)) as [[n' e']|].
      * destruct Hrun' as (-> & _). done.
      * by rewrite Hrun'.
    + intros petsc' Hok. by eapply setup_sets_flag.
  - rewrite Hrun. cbn [fst snd].
    assert (all_succeed petsc (trace w) setup_calls) as Hok by (by apply all_succeed_find).
    split; [|split; [done|split; [done|done]]].
    split; [done|]. intros _. unfold flag, member. cbn. by rewrite lookup_insert_eq.
Qed.

Lemma allocated_fresh_Field petsc m : allocated_on m (fresh_Field petsc m).
Proof.
  split; [done|]. eexists. split; [done|]. by rewrite length_map, length_seq.
Qed.

Lemma allocated_Field_run petsc m w :
  allocated_Field petsc m w = (log (Allocate m) w, Normal (fresh_Field petsc m)).
Proof. done. Qed.

Lemma operator_call_run this x w s :
  objects w !! this = Some s →
  operator_call this x w = (w, Normal (operatorFunction s x)).
Proof. intros Hs. unfold operator_call. by rewrite (bind_get_this _ _ _ s Hs). Qed.

(** [functionWrapper] is [multiply_with] at what the context holds. *)
Lemma functionWrapper_multiply_with petsc A v1 v2 w s :
  objects w !! mat_ctx A = Some s →
  functionWrapper petsc A v1 v2 w
  = multiply_with petsc (operatorFunction s) (localmesh s) v1 v2 w.
Proof.
  intros Hs. unfold functionWrapper, multiply_with. cbn. case_decide; [|done].
  rewrite Hs.
  match goal with |- match ?a _ with _ => _ end = match ?b _ with _ => _ end =>
    assert (∀ w0, objects w0 = objects w → a w0 = b w0) as Heq
  end.
  { intros w0 Hw0. rewrite !bind_unfold. rewrite allocated_Field_run.
    rewrite !bind_unfold.
    pose proof (unchanged_unpack_stmt petsc v1 (fresh_Field petsc (localmesh s))
                  (log (Allocate (localmesh s)) w0)) as Hu.
    destruct (unpack_stmt _ _ _ _) as [w1 [tmp|e|e|]]; try done.
    rewrite bind_unfold, (operator_call_run _ _ _ s); [done|].
    cbn in Hu. by rewrite Hu, Hw0. }
  by rewrite Heq.
Qed.

Lemma multiply_with_objects petsc op lm v1 v2 w :
  objects (multiply_with petsc op lm v1 v2 w).1.1 = objects w.
Proof.
  unfold multiply_with. cbn. case_decide; [|done].
  match goal with |- context [?m (log ?e w)] =>
    assert (unchanged m) as Hm
  end.
  { repeat (apply unchanged_bind; [|intros ?]);
      auto using unchanged_allocated_Field, unchanged_unpack_stmt,
        unchanged_get_this, unchanged_ret, unchanged_pack_stmt. }
  match goal with |- context [?m (log ?e w)] =>
    specialize (Hm (log e w)); destruct (m (log e w)) as [w1 [a|e'|e'|]]
  end; done.
Qed.

(** Every product of a solve is computed with the operator that the context
    holds while the solve runs. *)
Lemma ksp_iterate_multiply_with petsc A r :
  registered MATOP_MULT A = Some FunctionWrapper →
  ∀ w s, objects w !! mat_ctx A = Some s →
    ksp_iterate (MatMult_shell petsc A) r w
    = ksp_iterate (multiply_with petsc (operatorFunction s) (localmesh s)) r w.
Proof.
  intros Hreg. induction r as [v1 v2 k IH|ierr x reason]; intros w s Hs; [|done].
  cbn [ksp_iterate]. unfold MatMult_shell at 1. rewrite Hreg.
  rewrite (functionWrapper_multiply_with petsc A v1 v2 w s Hs).
  pose proof (multiply_with_objects petsc (operatorFunction s) (localmesh s) v1 v2 w) as Ho.
  destruct (multiply_with _ _ _ _ _ _) as [[w1 v2'] [e|e|e|]]; cbn in Ho; try done.
  - apply IH. by rewrite Ho.
  - apply IH. by rewrite Ho.
Qed.

Lemma keeps_operatorFunction_setup petsc this :
  keeps operatorFunction this (setup petsc this).
Proof.
  intros w. unfold member.
  destruct (objects w !! this) as [s|] eqn:Hs.
  - destruct (doneSetup s) eqn:Hd.
    + rewrite setup_when_done; [cbn; by rewrite Hs|].
      unfold flag, member. by rewrite Hs, <- Hd.
    + pose proof (setup_cases petsc this w s Hs Hd) as Hrun.
      destruct (list_find _ _) as [[n e]|].
      * destruct Hrun as (_ & _ & s' & Hs' & _ & Hop & _).
        rewrite Hs'. cbn. by rewrite Hop.
      * rewrite Hrun. cbn. by rewrite lookup_insert_eq.
  - unfold setup. rewrite bind_unfold. unfold get_this. rewrite Hs. cbn. by rewrite Hs.
Qed.

Lemma after_call_operatorFunction `{BoutRealOps scalar} petsc bout this c w :
  is_CallSetOperatorFunction c = false →
  member operatorFunction this (after_call petsc bout this c w)
  = member operatorFunction this w.
Proof.
  intros Hc. destruct c; cbn; try done.
  - by rewrite keeps_operator_call.
  - by rewrite (keeps_operator_call operatorFunction this input).
  - by rewrite keeps_operatorFunction_setup.
  - by rewrite keeps_invert.
  - by rewrite keeps_verify.
Qed.

(** C9.  [setOperatorFunction(g)] takes effect at once, set up or not: from
    then on, and until the function is set again, [operator()] and [apply]
    return what [g] returns; and whenever the object holds [g], the callback
    registered with the shell matrix computes its product with [g], for
    every product that a solve asks for.  The matrix holds the address of
    the object, not a function. *)
Theorem rebinding_takes_effect `{BoutRealOps scalar} (petsc : Petsc scalar)
    (bout : Bout scalar) (this : nat) (g : function_signature scalar)
    (w : World scalar) (s : InvertableOperator scalar) :
  objects w !! this = Some s →
  let w' := (setOperatorFunction this g w).1 in
  flag this w' = Some (doneSetup s) ∧
  (∀ cs, Forall (λ c, is_CallSetOperatorFunction c = false) cs →
     let w2 := after_calls petsc bout this cs w' in
     member operatorFunction this w2 = Some g ∧
     ∀ x, operator_call this x w2 = (w2, Normal (g x)) ∧
          apply this x w2 = (w2, Normal (g x))) ∧
  (∀ w2 s2 A, objects w2 !! this = Some s2 → operatorFunction s2 = g →
     mat_ctx A = this →
     (∀ v1 v2, functionWrapper petsc A v1 v2 w2
               = multiply_with petsc g (localmesh s2) v1 v2 w2) ∧
     (registered MATOP_MULT A = Some FunctionWrapper →
      ∀ r, ksp_iterate (MatMult_shell petsc A) r w2
           = ksp_iterate (multiply_with petsc g (localmesh s2)) r w2)).
Proof.
  intros Hs w'.
  assert (objects w' !! this = Some (with_operatorFunction g s)) as Hs'.
  { subst w'. unfold setOperatorFunction. rewrite (bind_get_this _ _ _ s Hs).
    cbn. by rewrite lookup_insert_eq. }
  split; [|split].
  - unfold flag, member. by rewrite Hs'.
  - intros cs Hcs w2.
    assert (member operatorFunction this w2 = Some g) as Hg.
    { subst w2. assert (member operatorFunction this w' = Some g) as Hg
        by (unfold member; by rewrite Hs').
      revert Hg. generalize w'. clear Hs'.
      induction Hcs as [|c cs Hc Hcs IH]; intros w1 Hg; [exact Hg|].
      cbn. apply IH. by rewrite after_call_operatorFunction. }
    split; [done|]. intros x. unfold member in Hg.
    destruct (objects w2 !! this) as [s2|] eqn:Hs2; [|done].
    injection Hg as <-. unfold apply. by rewrite (operator_call_run _ _ _ s2 Hs2).
  - intros w2 s2 A Hs2 <- <-. split.
    + intros v1 v2. by apply functionWrapper_multiply_with.
    + intros Hreg r. by apply ksp_iterate_multiply_with.
Qed.

Lemma MatMult_shell_registered petsc A v1 v2 w :
  registered MATOP_MULT A = Some FunctionWrapper →
  MatMult_shell petsc A v1 v2 w = functionWrapper petsc A v1 v2 w.
Proof. intros Hreg. unfold MatMult_shell. by rewrite Hreg. Qed.

(** What [multiply_with] does when the context is found, the accessors
    succeed and both vectors are at least as long as the field has
    elements. *)
Lemma multiply_with_Normal petsc op m v1 v2 w :
  mesh_ok m →
  ierr_of petsc (trace w) MatShellGetContext = 0%Z →
  no_error petsc [VecGetArray; VecRestoreArray; VecGetArrayRead; VecRestoreArrayRead] →
  length (cells m) ≤ length v1 →
  length (cells m) ≤ length v2 →
  (∀ x, allocated_on m x → allocated_on m (op x)) →
  ∃ w1 tmp out,
    multiply_with petsc op m v1 v2 w
    = (w1, out ++ drop (length (cells m)) v2, Normal 0%Z) ∧
    allocated_on m tmp ∧
    elements tmp = Some (take (length (cells m)) v1) ∧
    elements (op tmp) = Some out ∧
    objects w1 = objects w ∧
    trace w1 = trace w ++ product_events m.
Proof.
  intros Hm Hctx Hok Hl1 Hl2 Hop.
  destruct (petscVecToField_Normal petsc m (fresh_Field petsc m) v1
              (log (Allocate m) (log (Call MatShellGetContext) w)) Hm)
    as (tmp & Hun & Htmp & Hel & _); [calls_ok | apply allocated_fresh_Field | done |].
  destruct (fieldToPetscVec_Normal petsc m (op tmp) v2
              (log (Call VecRestoreArrayRead) (log (Call VecGetArrayRead)
                 (log (Allocate m) (log (Call MatShellGetContext) w)))) Hm)
    as (out & Hout & _ & Hpack); [calls_ok | by apply Hop | done |].
  eexists _, tmp, out. split; [|split; [done|split; [done|split; [done|]]]].
  - unfold multiply_with. cbn [petsc_call]. rewrite Hctx, decide_True by done.
    rewrite !bind_unfold, allocated_Field_run, !bind_unfold.
    unfold unpack_stmt. rewrite Hun. cbn [dropping_code].
    unfold pack_stmt. rewrite Hpack. cbn [dropping_code]. done.
  - cbn. split; [done|]. by rewrite <- !app_assoc.
Qed.

(** The product when [MatShellGetContext] fails: the pointer is read
    without having been written. *)
Lemma functionWrapper_without_context petsc A v1 v2 w :
  ierr_of petsc (trace w) MatShellGetContext ≠ 0%Z →
  functionWrapper petsc A v1 v2 w = (log (Call MatShellGetContext) w, v2, Undefined).
Proof. intros Hctx. unfold functionWrapper. cbn. by rewrite decide_False. Qed.

(** C5, as the code has it.  A [setup()] during which no PETSc call fails
    leaves a shell matrix with exactly one operation, [MATOP_MULT], bound to
    [functionWrapper], and has allocated no field: its events are the eight
    PETSc calls.  When [MatShellGetContext] and the four accessors succeed,
    both vectors have an entry for each element of a field and the function
    maps allocated fields on the mesh to such fields, each product allocates
    its own scratch field [tmp], unpacks [v1] into it, applies the function
    that the object holds at that time and packs the result into [v2]. *)
Theorem multiply_callback (petsc : Petsc scalar) (this : nat) (w : World scalar)
    (s : InvertableOperator scalar) :
  objects w !! this = Some s →
  doneSetup s = false →
  all_succeed petsc (trace w) setup_calls →
  let w1 := (setup petsc this w).1 in
  ∃ s1 A,
    objects w1 !! this = Some s1 ∧ matOperator s1 = Some A ∧
    ksp s1 ≫= ksp_Amat = Some A ∧ mat_ctx A = this ∧
    mat_ops A = [(MATOP_MULT, FunctionWrapper)] ∧
    trace w1 = trace w ++ map Call setup_calls ∧
    ∀ w2 s2 v1 v2,
      objects w2 !! this = Some s2 →
      mesh_ok (localmesh s2) →
      no_error petsc [MatShellGetContext; VecGetArray; VecRestoreArray;
                      VecGetArrayRead; VecRestoreArrayRead] →
      length (cells (localmesh s2)) ≤ length v1 →
      length (cells (localmesh s2)) ≤ length v2 →
      (∀ x, allocated_on (localmesh s2) x →
            allocated_on (localmesh s2) (operatorFunction s2 x)) →
      ∃ w3 tmp out,
        MatMult_shell petsc A v1 v2 w2
        = (w3, out ++ drop (length (cells (localmesh s2))) v2, Normal 0%Z) ∧
        allocated_on (localmesh s2) tmp ∧
        elements tmp = Some (take (length (cells (localmesh s2))) v1) ∧
        elements (operatorFunction s2 tmp) = Some out ∧
        objects w3 = objects w2 ∧
        trace w3 = trace w2 ++ [Call MatShellGetContext; Allocate (localmesh s2);
                                Call VecGetArrayRead; Call VecRestoreArrayRead;
                                Call VecGetArray; Call VecRestoreArray].
Proof.
  intros Hs Hd Hsetup w1. subst w1.
  rewrite (setup_all_succeed petsc this w s Hs Hd Hsetup).
  eexists (set_up petsc this s), _. cbn.
  split; [apply lookup_insert_eq|]. do 5 (split; [reflexivity|]).
  intros w2 s2 v1 v2 Hs2 Hm Hok Hl1 Hl2 Hop.
  rewrite MatMult_shell_registered by reflexivity.
  rewrite (functionWrapper_multiply_with petsc _ v1 v2 w2 s2) by done.
  apply multiply_with_Normal; try done; [apply Hok; set_solver | calls_ok].
Qed.


Lemma modify_this_run this f w s :
  objects w !! this = Some s →
  modify_this this f w = (store this (f s) w, Normal ()).
Proof. intros Hs. unfold modify_this. by rewrite (bind_get_this _ _ _ s Hs). Qed.

Lemma ksp_get_reason_run petsc this w s k :
  objects w !! this = Some s → ksp s = Some k →
  ksp_get_reason petsc this w
  = (log (Call KSPGetConvergedReason) w,
     Normal (ierr_of petsc (trace w) KSPGetConvergedReason,
             if decide (ierr_of petsc (trace w) KSPGetConvergedReason = 0%Z)
             then Some (ksp_reason k) else None)).
Proof.
  intros Hs Hk. unfold ksp_get_reason. by rewrite (bind_get_this _ _ _ s Hs), Hk.
Qed.

(** [invert] on a session that is set up, up to the call of [KSPSolve]. *)
Lemma invert_to_pack petsc bout this b w s r0 w1 r1 :
  objects w !! this = Some s → doneSetup s = true → rhs s = Some r0 →
  (2 ≤ CHECK bout → localmesh s = getMesh b) →
  pack_stmt petsc b r0 w = (w1, Normal r1) →
  invert petsc bout this b w
  = (ierr ← ksp_solve petsc this;
     _ ← CHKERRQ ierr;
     '(ierr, reason) ← ksp_get_reason petsc this;
     match reason with
     | None => undefined
     | Some reason =>
         if decide (reason ≤ 0)%Z then throw (KSPSolveFailed reason)
         else
           lhsField ← allocated_Field petsc (localmesh s);
           s' ← get_this this;
           match lhs s' with
           | Some x => unpack_stmt petsc x lhsField
           | None => undefined
           end
     end) (store this (with_rhs r1 s) w1).
Proof.
  intros Hs Hd Hb0 Hmesh Hpack.
  unfold invert. rewrite (bind_get_this _ _ _ s Hs). rewrite Hd. cbn [negb].
  rewrite bind_unfold.
  assert (ASSERT2 bout (bool_decide (localmesh s = getMesh b))
            "localmesh == rhsField.getMesh()" w = (w, Normal ())) as ->.
  { unfold ASSERT2. case_decide; [|done]. by rewrite bool_decide_eq_true_2 by auto. }
  rewrite bind_unfold, Hb0, Hpack.
  rewrite bind_unfold, (modify_this_run this _ w1 s); [done|].
  pose proof (unchanged_pack_stmt petsc b r0 w) as Hu.
  rewrite Hpack in Hu. cbn in Hu. by rewrite Hu.
Qed.

(** [invert] on a session that is set up, up to the return of [KSPSolve]. *)
Lemma invert_to_solve petsc bout this b w s r0 w1 r1 w2 ierr :
  objects w !! this = Some s → doneSetup s = true → rhs s = Some r0 →
  (2 ≤ CHECK bout → localmesh s = getMesh b) →
  pack_stmt petsc b r0 w = (w1, Normal r1) →
  ksp_solve petsc this (store this (with_rhs r1 s) w1) = (w2, Normal ierr) →
  invert petsc bout this b w
  = (_ ← CHKERRQ ierr;
     '(ierr, reason) ← ksp_get_reason petsc this;
     match reason with
     | None => undefined
     | Some reason =>
         if decide (reason ≤ 0)%Z then throw (KSPSolveFailed reason)
         else
           lhsField ← allocated_Field petsc (localmesh s);
           s' ← get_this this;
           match lhs s' with
           | Some x => unpack_stmt petsc x lhsField
           | None => undefined
           end
     end) w2.
Proof.
  intros Hs Hd Hb0 Hmesh Hpack Hlhsve.
  rewrite (invert_to_pack petsc bout this b w s r0 w1 r1) by done.
  by rewrite bind_unfold, Hlhsve.
Qed.

(** [invert] from the point where the reason has been read. *)
Lemma invert_after_reason petsc bout this b w s r0 w1 r1 w2 s2 k2 :
  objects w !! this = Some s → doneSetup s = true → rhs s = Some r0 →
  (2 ≤ CHECK bout → localmesh s = getMesh b) →
  pack_stmt petsc b r0 w = (w1, Normal r1) →
  ksp_solve petsc this (store this (with_rhs r1 s) w1) = (w2, Normal 0%Z) →
  objects w2 !! this = Some s2 → ksp s2 = Some k2 →
  ierr_of petsc (trace w2) KSPGetConvergedReason = 0%Z →
  invert petsc bout this b w
  = (if decide (ksp_reason k2 ≤ 0)%Z then throw (KSPSolveFailed (ksp_reason k2))
     else
       lhsField ← allocated_Field petsc (localmesh s);
       s' ← get_this this;
       match lhs s' with
       | Some x => unpack_stmt petsc x lhsField
       | None => undefined
       end) (log (Call KSPGetConvergedReason) w2).
Proof.
  intros Hs Hd Hb0 Hmesh Hpack Hsolve Hs2 Hk2 Hreason.
  rewrite (invert_to_solve petsc bout this b w s r0 w1 r1 w2 0%Z) by done.
  rewrite bind_unfold. unfold CHKERRQ. rewrite decide_True by done.
  rewrite bind_unfold, (ksp_get_reason_run petsc this w2 s2 k2) by done.
  by rewrite Hreason, decide_True by done.
Qed.

(** What [invert] does after a [KSPSolve] that returned the code 0, on a
    session that is set up: once the right-hand side is packed, and with
    [KSPGetConvergedReason] giving the convergence reason [reason], a reason
    that is not positive makes [invert] throw the exception carrying it, and
    nothing is returned; a positive reason makes [invert] allocate a new
    field, unpack the solution vector into it and return it. *)
Lemma invert_after_solve (petsc : Petsc scalar) (bout : Bout scalar) (this : nat)
    (b : Field scalar) (w w1 w2 : World scalar) (s s2 : InvertableOperator scalar)
    (r0 r1 sol : Vec scalar) (k2 : KSP) (ierr : PetscErrorCode) :
  objects w !! this = Some s → doneSetup s = true → rhs s = Some r0 →
  (2 ≤ CHECK bout → localmesh s = getMesh b) →
  pack_stmt petsc b r0 w = (w1, Normal r1) →
  ksp_solve petsc this (store this (with_rhs r1 s) w1) = (w2, Normal ierr) →
  objects w2 !! this = Some s2 → ksp s2 = Some k2 → lhs s2 = Some sol →
  mesh_ok (localmesh s) →
  length (cells (localmesh s)) ≤ length sol →
  no_error petsc [VecGetArrayRead; VecRestoreArrayRead] →
  ierr_of petsc (trace w2) KSPGetConvergedReason = 0%Z →
  ierr = 0%Z →
  let reason := ksp_reason k2 in
  ((reason ≤ 0)%Z →
     invert petsc bout this b w
     = (log (Call KSPGetConvergedReason) w2, Throw (KSPSolveFailed reason)) ∧
     what_args (KSPSolveFailed reason) = [reason]) ∧
  ((0 < reason)%Z →
     ∃ w3 x,
       invert petsc bout this b w = (w3, Normal x) ∧
       allocated_on (localmesh s) x ∧
       elements x = Some (take (length (cells (localmesh s))) sol) ∧
       objects w3 = objects w2 ∧
       trace w3 = trace w2 ++ [Call KSPGetConvergedReason; Allocate (localmesh s);
                               Call VecGetArrayRead; Call VecRestoreArrayRead]) ∧
  ((∃ x, (invert petsc bout this b w).2 = Normal x) ↔ (0 < reason)%Z).
Proof.
  intros Hs Hd Hb0 Hmesh Hpack Hlhsve Hs2 Hk2 Hx2 Hm Hlen Hok Hget -> reason.
  rewrite (invert_after_reason petsc bout this b w s r0 w1 r1 w2 s2 k2) by done.
  fold reason.
  assert ((0 < reason)%Z →
     ∃ w3 x,
       (if decide (reason ≤ 0)%Z then throw (KSPSolveFailed reason)
        else
          lhsField ← allocated_Field petsc (localmesh s);
          s' ← get_this this;
          match lhs s' with
          | Some x => unpack_stmt petsc x lhsField
          | None => undefined
          end) (log (Call KSPGetConvergedReason) w2) = (w3, Normal x) ∧
       allocated_on (localmesh s) x ∧
       elements x = Some (take (length (cells (localmesh s))) sol) ∧
       objects w3 = objects w2 ∧
       trace w3 = trace w2 ++ [Call KSPGetConvergedReason; Allocate (localmesh s);
                               Call VecGetArrayRead; Call VecRestoreArrayRead]) as Hpos.
  { intros Hr. rewrite decide_False by lia.
    rewrite bind_unfold, allocated_Field_run.
    rewrite (bind_get_this _ _ _ s2) by done. rewrite Hx2.
    destruct (petscVecToField_Normal petsc (localmesh s)
                (fresh_Field petsc (localmesh s)) sol
                (log (Allocate (localmesh s)) (log (Call KSPGetConvergedReason) w2)) Hm)
      as (x & Hun & Hx & Hel & _); [done | apply allocated_fresh_Field | done |].
    eexists _, x. unfold unpack_stmt. rewrite Hun. cbn [dropping_code].
    split; [done|]. split; [done|]. split; [done|]. split; [done|].
    cbn. by rewrite <- !app_assoc. }
  split; [|split].
  - intros Hr. by rewrite decide_True.
  - done.
  - split.
    + intros [x Hx]. destruct (decide (reason ≤ 0)%Z) as [Hr|Hr]; [done|lia].
    + intros Hr. destruct (Hpos Hr) as (w3 & x & -> & _). by exists x.
Qed.

(** When [KSPGetConvergedReason] fails after a solve that returned the
    code 0, [invert] compares a reason that nothing has written. *)
Lemma invert_without_reason petsc bout this b w s r0 w1 r1 w2 s2 k2 :
  objects w !! this = Some s → doneSetup s = true → rhs s = Some r0 →
  (2 ≤ CHECK bout → localmesh s = getMesh b) →
  pack_stmt petsc b r0 w = (w1, Normal r1) →
  ksp_solve petsc this (store this (with_rhs r1 s) w1) = (w2, Normal 0%Z) →
  objects w2 !! this = Some s2 → ksp s2 = Some k2 →
  ierr_of petsc (trace w2) KSPGetConvergedReason ≠ 0%Z →
  invert petsc bout this b w = (log (Call KSPGetConvergedReason) w2, Undefined).
Proof.
  intros Hs Hd Hb0 Hmesh Hpack Hsolve Hs2 Hk2 Hreason.
  rewrite (invert_to_solve petsc bout this b w s r0 w1 r1 w2 0%Z) by done.
  rewrite bind_unfold. unfold CHKERRQ. rewrite decide_True by done.
  rewrite bind_unfold, (ksp_get_reason_run petsc this w2 s2 k2) by done.
  by rewrite decide_False by done.
Qed.

(** *** Calls that only add to the trace *)

Lemma appends_bind {A B} (m : M scalar A) (f : A → M scalar B) :
  appends m → (∀ a, appends (f a)) → appends (m ≫= f).
Proof.
  intros Hm Hf w. rewrite bind_unfold. destruct (Hm w) as [ev Hev].
  destruct (m w) as [w1 [a|e|e|]]; cbn in *; try by exists ev.
  destruct (Hf a w1) as [ev' Hev']. exists (ev ++ ev').
  by rewrite Hev', Hev, <- app_assoc.
Qed.

Lemma appends_silent {A} (m : M scalar A) :
  (∀ w, trace (m w).1 = trace w) → appends m.
Proof. intros Hm w. exists []. by rewrite Hm, app_nil_r. Qed.

Lemma appends_get_this this : appends (get_this (scalar:=scalar) this).
Proof. apply appends_silent. intros w. unfold get_this. by case_match. Qed.

Lemma appends_modify_this this (f : InvertableOperator scalar → InvertableOperator scalar) :
  appends (modify_this this f).
Proof.
  apply appends_silent. intros w. unfold modify_this. rewrite bind_unfold.
  unfold get_this. by destruct (objects w !! this).
Qed.

Lemma appends_pack_stmt petsc x v : appends (pack_stmt petsc x v).
Proof.
  intros w. unfold pack_stmt, fieldToPetscVec, petsc_call, dropping_code.
  repeat (case_decide || case_match || simplify_eq/=);
    first [by exists [Call VecGetArray]
          | exists [Call VecGetArray; Call VecRestoreArray]; by rewrite <- app_assoc].
Qed.

Lemma appends_unpack_stmt petsc v x : appends (unpack_stmt petsc v x).
Proof.
  intros w. unfold unpack_stmt, petscVecToField, petsc_call, dropping_code.
  repeat (case_decide || case_match || simplify_eq/=);
    first [by exists [Call VecGetArrayRead]
          | exists [Call VecGetArrayRead; Call VecRestoreArrayRead];
            by rewrite <- app_assoc].
Qed.

Lemma appends_allocated_Field petsc m : appends (allocated_Field petsc m).
Proof. intros w. by exists [Allocate m]. Qed.

Lemma appends_operator_call this x : appends (operator_call this x).
Proof.
  apply appends_bind; [apply appends_get_this|]. intros s. by apply appends_silent.
Qed.

Lemma functionWrapper_appends petsc A v1 v2 w :
  ∃ events, trace (functionWrapper petsc A v1 v2 w).1.1 = trace w ++ events.
Proof.
  unfold functionWrapper. cbn [petsc_call].
  case_decide; [|by exists [Call MatShellGetContext]].
  destruct (objects _ !! mat_ctx A) as [s|]; [|by exists [Call MatShellGetContext]].
  match goal with |- context [?m (log ?e w)] =>
    assert (appends m) as Hm
  end.
  { repeat (apply appends_bind; [|intros ?]);
      first [ by apply appends_silent
            | auto using appends_allocated_Field, appends_unpack_stmt,
                appends_get_this, appends_pack_stmt ]. }
  match goal with |- context [?m (log ?e w)] =>
    destruct (Hm (log e w)) as [ev Hev]; destruct (m (log e w)) as [w1 [a|e'|e'|]]
  end; exists (Call MatShellGetContext :: ev); cbn in *;
    by rewrite Hev, <- app_assoc.
Qed.

Lemma MatMult_shell_appends petsc A v1 v2 w :
  ∃ events, trace (MatMult_shell petsc A v1 v2 w).1.1 = trace w ++ events.
Proof.
  unfold MatMult_shell. destruct (registered MATOP_MULT A) as [[]|].
  - apply functionWrapper_appends.
  - exists []. by rewrite app_nil_r.
Qed.

Lemma ksp_iterate_appends mult r :
  (∀ v1 v2 w, ∃ events, trace (mult v1 v2 w).1.1 = trace w ++ events) →
  ∀ w, ∃ events, trace (ksp_iterate mult r w).1 = trace w ++ events.
Proof.
  intros Hmult. induction r as [v1 v2 k IH|ierr x reason]; intros w.
  2:{ exists []. by rewrite app_nil_r. }
  cbn. destruct (Hmult v1 v2 w) as [ev Hev].
  destruct (mult v1 v2 w) as [[w1 v2'] [e|e|e|]]; cbn in *; try by exists ev.
  - destruct (IH e v2' w1) as [ev' Hev']. exists (ev ++ ev').
    by rewrite Hev', Hev, <- app_assoc.
  - destruct (IH e v2' w1) as [ev' Hev']. exists (ev ++ ev').
    by rewrite Hev', Hev, <- app_assoc.
Qed.

(** [KSPSolve] on created handles is logged before anything that the
    solver does. *)
Lemma ksp_solve_trace petsc this w s A k r0 l0 :
  objects w !! this = Some s →
  ksp s = Some k → ksp_Amat k = Some A → rhs s = Some r0 → lhs s = Some l0 →
  ∃ events, trace (ksp_solve petsc this w).1 = trace w ++ Call KSPSolve :: events.
Proof.
  intros Hs Hk HA Hr Hl. unfold ksp_solve.
  rewrite (bind_get_this _ _ _ s Hs), Hk, Hr, Hl. cbn. rewrite HA.
  rewrite bind_unfold.
  destruct (ksp_iterate_appends (MatMult_shell petsc A) (ksp_run petsc (trace w) r0 l0)
              (MatMult_shell_appends petsc A) (log (Call KSPSolve) w)) as [ev Hev].
  cbn in Hev. rewrite <- app_assoc in Hev. cbn in Hev.
  destruct (ksp_iterate _ _ _) as [w1 [[[ierr x'] reason]|e|e|]]; cbn in *;
    try by exists ev.
  rewrite bind_unfold.
  destruct (appends_modify_this this
              (λ s', with_ksp (ksp_with_reason reason k) (with_lhs x' s')) w1)
    as [ev' Hev'].
  destruct (modify_this _ _ w1) as [w2 [[]|e|e|]]; cbn in *;
    exists (ev ++ ev'); by rewrite Hev', Hev, <- app_assoc.
Qed.

Lemma appends_ksp_get_reason petsc this : appends (ksp_get_reason petsc this).
Proof.
  unfold ksp_get_reason. apply appends_bind; [apply appends_get_this|].
  intros s. destruct (ksp s); [|by apply appends_silent].
  apply appends_bind; [|intros ?; by apply appends_silent].
  intros w. by exists [Call KSPGetConvergedReason].
Qed.

(** When [VecGetArray] fails, [fieldToPetscVec] stops there, and as a
    statement it leaves the vector as it was. *)
Lemma pack_stmt_fails petsc b v w :
  ierr_of petsc (trace w) VecGetArray ≠ 0%Z →
  pack_stmt petsc b v w = (log (Call VecGetArray) w, Normal v).
Proof.
  intros Hfail. unfold pack_stmt, fieldToPetscVec, petsc_call.
  by rewrite decide_False by done.
Qed.

Lemma set_up_ready petsc this s : ready this (set_up petsc this s).
Proof.
  split; [done|]. eexists _, _, _, _. cbn.
  repeat split; try reflexivity; unfold new_Vec; by rewrite length_map, length_seq.
Qed.

End Session.

(** * The session properties at the demo instance *)

(** At the demo instance the solver returns code 0 and reason 2, and
    [invert] returns the solution. *)
Example invert_returns_the_solution :
  ∃ w3 x,
    invert Demo.petsc0 Demo.bout0 5 (Demo.field 10 20) (Demo.w_setup Demo.petsc0)
    = (w3, Normal x) ∧
    elements x = Some [20; 10]%Z.
Proof.
  edestruct (invert_after_solve Demo.petsc0 Demo.bout0 5 (Demo.field 10 20)
               (Demo.w_setup Demo.petsc0)) as (_ & Hpos & _).
  - vm_compute. reflexivity.
  - reflexivity.
  - reflexivity.
  - reflexivity.
  - vm_compute. reflexivity.
  - vm_compute. reflexivity.
  - vm_compute. reflexivity.
  - reflexivity.
  - reflexivity.
  - split; apply (bool_decide_unpack _); vm_compute; exact I.
  - cbn. lia.
  - by intros tr c _.
  - reflexivity.
  - reflexivity.
  - destruct Hpos as (w3 & x & Hinv & _ & Hel & _); [done|].
    by exists w3, x.
Qed.

(** C2 at a failing solver, on the session of the demo instance with the
    right-hand side (10, 20).  When [KSPSolve] returns the code 0 and leaves
    the reason -3, [invert] throws the exception that carries -3, as the
    claim has it.  When [KSPSolve] returns the code 91 and leaves the
    reason -3, the reason is not positive either, yet [invert] throws
    nothing: it leaves through the [return] of [CHKERRQ], and its caller
    receives the field made from the number 91. *)
Lemma invert_returns_when_KSPSolve_fails :
  (invert (Demo.petsc_failing 0 (-3)) Demo.bout0 5 (Demo.field 10 20)
     (Demo.w_setup (Demo.petsc_failing 0 (-3)))).2 = Throw (KSPSolveFailed (-3)) ∧
  ksp_reason <$>
    ((objects (invert (Demo.petsc_failing 91 (-3)) Demo.bout0 5 (Demo.field 10 20)
                 (Demo.w_setup (Demo.petsc_failing 91 (-3)))).1 !! 5) ≫= ksp)
  = Some (-3)%Z ∧
  (invert (Demo.petsc_failing 91 (-3)) Demo.bout0 5 (Demo.field 10 20)
     (Demo.w_setup (Demo.petsc_failing 91 (-3)))).2 = ChkErr 91%Z ∧
  (returned_T Demo.bout0
     (invert (Demo.petsc_failing 91 (-3)) Demo.bout0 5 (Demo.field 10 20))
     (Demo.w_setup (Demo.petsc_failing 91 (-3)))).2 = Normal (Demo.field 91 91) ∧
  ¬ (∃ reason,
       (invert (Demo.petsc_failing 91 (-3)) Demo.bout0 5 (Demo.field 10 20)
          (Demo.w_setup (Demo.petsc_failing 91 (-3)))).2
       = Throw (KSPSolveFailed reason)).
Proof.
  split; [by vm_compute|].
  split; [by vm_compute|]. split; [by vm_compute|]. split; [by vm_compute|].
  intros [reason H]. by vm_compute in H.
Qed.


(** C4 at the demo instance: [invert] after the function was applied and
    replaced, without [setup()]. *)
Lemma invert_before_setup_fails_demo :
  let w := after_calls Demo.petsc0 Demo.bout0 5
             [CallApply (Demo.field 1 2); CallSetOperatorFunction Demo.twice]
             (construct Demo.bout0 5 None None Demo.w0).1 in
  invert Demo.petsc0 Demo.bout0 5 (Demo.field 10 20) w = (w, Throw InvertBeforeSetup) ∧
  what InvertBeforeSetup
  = "Trying to call invert on an InvertableOperator instance that has not been setup.".
Proof.
  apply (invert_before_setup_fails Demo.petsc0 Demo.bout0 5 None None Demo.w0).
  by repeat constructor.
Defined.

(** C5 at the demo instance: after [setup()] the product with (7, 8) under
    the identity. *)
Lemma multiply_callback_demo :
  ∃ w3 tmp out,
    MatMult_shell Demo.petsc0 Demo.A5 [7; 8]%Z [0; 0]%Z (Demo.w_setup Demo.petsc0)
    = (w3, out ++ drop 2 [0; 0]%Z, Normal 0%Z) ∧
    elements tmp = Some (take 2 [7; 8]%Z) ∧
    elements (identity tmp) = Some out ∧
    trace w3 = trace (Demo.w_setup Demo.petsc0)
               ++ [Call MatShellGetContext; Allocate Demo.m2;
                   Call VecGetArrayRead; Call VecRestoreArrayRead;
                   Call VecGetArray; Call VecRestoreArray].
Proof.
  destruct (multiply_callback Demo.petsc0 5 Demo.w_new
              (new_InvertableOperator Demo.bout0 None None))
    as (s1 & A & Hs1 & HA & _ & _ & _ & _ & Hmult).
  { reflexivity. }
  { reflexivity. }
  { apply no_error_all_succeed. by intros tr c _. }
  vm_compute in Hs1. injection Hs1 as <-. injection HA as <-.
  edestruct (Hmult (Demo.w_setup Demo.petsc0) (Demo.s_setup Demo.petsc0)
               [7; 8]%Z [0; 0]%Z)
    as (w3 & tmp & out & Hrun & _ & Htmp & Hout & _ & Htr).
  - vm_compute. reflexivity.
  - split; apply (bool_decide_unpack _); vm_compute; exact I.
  - by intros tr c _.
  - cbn. lia.
  - cbn. lia.
  - intros x Hx. exact Hx.
  - by exists w3, tmp, out.
Defined.

(** C5: the specification has the scratch field allocated once, at
    [setup()], and used again by every product.  At the demo instance
    [setup()] allocates no field, and two products allocate two. *)
Lemma scratch_field_is_allocated_per_product :
  let w1 := Demo.w_setup Demo.petsc0 in
  let w2 := (functionWrapper Demo.petsc0 Demo.A5 [7; 8]%Z [0; 0]%Z w1).1.1 in
  let w3 := (functionWrapper Demo.petsc0 Demo.A5 [1; 2]%Z [0; 0]%Z w2).1.1 in
  ((objects w1 !! 5) ≫= matOperator) = Some Demo.A5 ∧
  length (filter (λ e, e = Allocate Demo.m2) (trace w1)) = 0 ∧
  length (filter (λ e, e = Allocate Demo.m2) (trace w2)) = 1 ∧
  length (filter (λ e, e = Allocate Demo.m2) (trace w3)) = 2.
Proof. by vm_compute. Qed.


(** C9 at the demo instance: the doubling function bound after [setup()]. *)
Lemma rebinding_takes_effect_demo :
  let w' := (setOperatorFunction 5 Demo.twice (Demo.w_setup Demo.petsc0)).1 in
  operator_call 5 (Demo.field 1 2) w' = (w', Normal (Demo.field 2 4)) ∧
  (∀ v1 v2, functionWrapper Demo.petsc0 Demo.A5 v1 v2 w'
            = multiply_with Demo.petsc0 Demo.twice Demo.m2 v1 v2 w') ∧
  (∀ r, ksp_iterate (MatMult_shell Demo.petsc0 Demo.A5) r w'
        = ksp_iterate (multiply_with Demo.petsc0 Demo.twice Demo.m2) r w').
Proof.
  intros w'.
  edestruct (rebinding_takes_effect Demo.petsc0 Demo.bout0 5 Demo.twice
               (Demo.w_setup Demo.petsc0)) as (_ & Hcalls & Hmult).
  { vm_compute. reflexivity. }
  destruct (Hcalls [] (Forall_nil_2 _)) as [_ Hop].
  split; [apply Hop|].
  edestruct (Hmult w' (with_operatorFunction Demo.twice (Demo.s_setup Demo.petsc0))
               Demo.A5) as [Hfw Hksp].
  { vm_compute. reflexivity. }
  { reflexivity. }
  { reflexivity. }
  split; [exact Hfw|]. by apply Hksp.
Defined.

(** C9, seen from [invert]: with a solver that returns its first product as
    the solution, [invert(b)] after the rebinding returns the double of
    [b]. *)
Example invert_after_rebinding :
  (invert Demo.petsc0 Demo.bout0 5 (Demo.field 10 20)
     (setOperatorFunction 5 Demo.twice (Demo.w_setup Demo.petsc0)).1).2
  = Normal (Demo.field 20 40).
Proof. by vm_compute. Qed.

(** C10 at the demo instance: [KSPCreate] fails in the first [setup()]. *)
Lemma failed_setup_leaves_unset_demo :
  let w1 := (setup (Demo.petsc_without KSPCreate) 5 Demo.w_new).1 in
  (setup (Demo.petsc_without KSPCreate) 5 Demo.w_new).2 = ChkErr 1%Z ∧
  flag 5 w1 = Some false ∧
  member operatorFunction 5 w1 = Some identity ∧
  member localmesh 5 w1 = Some Demo.m2 ∧
  (∀ petsc' b, invert petsc' Demo.bout0 5 b w1 = (w1, Throw InvertBeforeSetup)) ∧
  (∀ petsc', (setup petsc' 5 w1).2 ≠ Throw SetupTwice) ∧
  (∀ petsc', all_succeed petsc' (trace w1) setup_calls →
     flag 5 (setup petsc' 5 w1).1 = Some true).
Proof.
  intros w1. split; [by vm_compute|].
  edestruct (failed_setup_leaves_unset (Demo.petsc_without KSPCreate) Demo.bout0 5
               Demo.w_new) as (_ & _ & _ & H).
  - vm_compute. reflexivity.
  - reflexivity.
  - apply (H 1%Z). by vm_compute.
Defined.

(** * Further properties of the marshaller and of the session *)

Section MoreMarshalling.

Context {scalar : Type}.

(** X1.  A buffer that is unpacked into an allocated field and packed again
    comes back: the first entries, one for each element of the field, are
    those of the first buffer, the other entries of the receiving buffer
    stay. *)
Theorem buffer_round_trip (petsc : Petsc scalar) (m : Mesh) (g : Field scalar)
    (buf buf2 : Vec scalar) (w : World scalar) :
  mesh_ok m →
  no_error petsc [VecGetArray; VecRestoreArray; VecGetArrayRead; VecRestoreArrayRead] →
  allocated_on m g →
  length (cells m) ≤ length buf →
  length (cells m) ≤ length buf2 →
  ∃ w1 w2 g',
    petscVecToField petsc buf g w = (w1, g', Normal ()) ∧
    fieldToPetscVec petsc g' buf2 w1
    = (w2, take (length (cells m)) buf ++ drop (length (cells m)) buf2, Normal ()) ∧
    (length buf = length (cells m) → length buf2 = length (cells m) →
     fieldToPetscVec petsc g' buf2 w1 = (w2, buf, Normal ())).
Proof.
  intros Hm Hok Hg Hl1 Hl2.
  destruct (petscVecToField_Normal petsc m g buf w Hm)
    as (g' & Hun & Hg' & Hel & _); [calls_ok | done | done |].
  destruct (fieldToPetscVec_Normal petsc m g' buf2
              (log (Call VecRestoreArrayRead) (log (Call VecGetArrayRead) w)) Hm)
    as (vals & Hv & _ & Hpack); [calls_ok | done | done |].
  rewrite Hel in Hv. injection Hv as <-.
  eexists _, _, g'. split; [done|]. split; [done|].
  intros E1 E2. rewrite Hpack. by rewrite <- E1 at 1; rewrite <- E2, firstn_all, drop_all, app_nil_r.
Qed.

End MoreMarshalling.

Lemma buffer_round_trip_demo :
  ∃ w1 w2 g',
    petscVecToField Demo.petsc0 [7; 8]%Z (Demo.field 0 0) Demo.w0 = (w1, g', Normal ()) ∧
    fieldToPetscVec Demo.petsc0 g' [0; 0]%Z w1 = (w2, [7; 8]%Z, Normal ()).
Proof.
  destruct (buffer_round_trip Demo.petsc0 Demo.m2 (Demo.field 0 0) [7; 8]%Z [0; 0]%Z
              Demo.w0) as (w1 & w2 & g' & Hun & _ & Hpack).
  - split; apply (bool_decide_unpack _); vm_compute; exact I.
  - by intros tr c _.
  - split; [done|]. by exists [0; 0]%Z.
  - cbn. lia.
  - cbn. lia.
  - exists w1, w2, g'. split; [done|]. by apply Hpack.
Defined.

Section MoreSession.

Context {scalar : Type}.
Implicit Types (w : World scalar) (s : InvertableOperator scalar) (petsc : Petsc scalar).
Implicit Types (x b : Field scalar) (v : Vec scalar) (bout : Bout scalar).

(** X2.  While the object holds the identity, and [MatShellGetContext] and
    the accessors succeed, the product is the trial vector: [MatMult] writes
    the first entries of [v1], one for each element of a field, into [v2],
    leaves the other entries of [v2] and returns the code 0. *)
Theorem identity_product (petsc : Petsc scalar) (this : nat) (w : World scalar)
    (s : InvertableOperator scalar) (A : Mat) (v1 v2 : Vec scalar) :
  objects w !! this = Some s →
  operatorFunction s = identity →
  mat_ctx A = this →
  registered MATOP_MULT A = Some FunctionWrapper →
  mesh_ok (localmesh s) →
  no_error petsc [MatShellGetContext; VecGetArray; VecRestoreArray;
                  VecGetArrayRead; VecRestoreArrayRead] →
  length (cells (localmesh s)) ≤ length v1 →
  length (cells (localmesh s)) ≤ length v2 →
  ∃ w1,
    MatMult_shell petsc A v1 v2 w
    = (w1, take (length (cells (localmesh s))) v1
           ++ drop (length (cells (localmesh s))) v2,
       Normal 0%Z) ∧
    (length v1 = length (cells (localmesh s)) →
     length v2 = length (cells (localmesh s)) →
     (MatMult_shell petsc A v1 v2 w).1.2 = v1).
Proof.
  intros Hs Hid <- Hreg Hm Hok Hl1 Hl2.
  rewrite MatMult_shell_registered by done.
  rewrite (functionWrapper_multiply_with petsc A v1 v2 w s Hs), Hid.
  destruct (multiply_with_Normal petsc identity (localmesh s) v1 v2 w Hm)
    as (w1 & tmp & out & Hrun & _ & Htmp & Hout & _);
    [apply Hok; set_solver | calls_ok | done | done | by intros x Hx |].
  unfold identity in Hout. rewrite Htmp in Hout. injection Hout as <-.
  exists w1. split; [done|]. intros E1 E2. rewrite Hrun. cbn.
  by rewrite <- E1 at 1; rewrite <- E2, firstn_all, drop_all, app_nil_r.
Qed.

(** X3.  [invert], [verify], [operator()] and [apply] never change the
    function, the mesh, the shell matrix or the set-up flag of the
    session. *)
Theorem solving_keeps_the_session `{BoutRealOps scalar} (petsc : Petsc scalar)
    (bout : Bout scalar) (this : nat) (c : MemberCall scalar) (w : World scalar) :
  is_CallSetup c = false →
  is_CallSetOperatorFunction c = false →
  let w1 := after_call petsc bout this c w in
  member operatorFunction this w1 = member operatorFunction this w ∧
  member localmesh this w1 = member localmesh this w ∧
  member matOperator this w1 = member matOperator this w ∧
  member doneSetup this w1 = member doneSetup this w.
Proof.
  intros Hc1 Hc2 w1. subst w1. destruct c; try done; cbn.
  - by rewrite !keeps_operator_call.
  - unfold apply. by rewrite !keeps_operator_call.
  - by rewrite !keeps_invert.
  - by rewrite !keeps_verify.
Qed.


(** X5.  The code that [fieldToPetscVec] returns is dropped by [invert]: on
    a session that is set up, when [VecGetArray] fails while the right-hand
    side is packed, [invert] does not return there.  Its next PETSc call is
    [KSPSolve], the right-hand side vector of the session is the one from
    before the call, and what [invert] does is the same for every field on
    the mesh. *)
Theorem invert_ignores_packing_failure (petsc : Petsc scalar) (bout : Bout scalar)
    (this : nat) (b b' : Field scalar) (w : World scalar)
    (s : InvertableOperator scalar) :
  objects w !! this = Some s →
  ready this s →
  (2 ≤ CHECK bout → localmesh s = getMesh b) →
  ierr_of petsc (trace w) VecGetArray ≠ 0%Z →
  (∃ events, trace (invert petsc bout this b w).1
             = trace w ++ Call VecGetArray :: Call KSPSolve :: events) ∧
  member rhs this (invert petsc bout this b w).1 = member rhs this w ∧
  (getMesh b' = getMesh b →
   invert petsc bout this b' w = invert petsc bout this b w).
Proof.
  intros Hs (Hd & A & k & r0 & x0 & HA & Hk & HkA & Hctx & Hreg & Hr0 & Hx0 & _) Hmesh Hfail.
  assert (∀ c, (2 ≤ CHECK bout → localmesh s = getMesh c) →
     invert petsc bout this c w
     = invert petsc bout this b w ∧
     (∃ events, trace (invert petsc bout this c w).1
                = trace w ++ Call VecGetArray :: Call KSPSolve :: events) ∧
     member rhs this (invert petsc bout this c w).1 = member rhs this w) as Hall.
  { intros c Hc.
    rewrite (invert_to_pack petsc bout this c w s r0 (log (Call VecGetArray) w) r0)
      by (try done; by apply pack_stmt_fails).
    rewrite (invert_to_pack petsc bout this b w s r0 (log (Call VecGetArray) w) r0)
      by (try done; by apply pack_stmt_fails).
    split; [done|].
    set (w1 := store this (with_rhs r0 s) (log (Call VecGetArray) w)).
    assert (objects w1 !! this = Some (with_rhs r0 s)) as Hs1 by apply lookup_insert_eq.
    destruct (ksp_solve_trace petsc this w1 (with_rhs r0 s) A k r0 x0) as [ev Hev];
      try done.
    pose proof (keeps_ksp_solve rhs (λ _ _, eq_refl) (λ _ _, eq_refl) petsc this w1)
      as Hkeep.
    assert (member rhs this w1 = member rhs this w) as Hrhs.
    { unfold member. rewrite Hs1, Hs. cbn. by rewrite Hr0. }
    assert (trace w1 = trace w ++ [Call VecGetArray]) as Htr1 by done.
    rewrite Htr1, <- app_assoc in Hev. cbn [app] in Hev.
    rewrite bind_unfold.
    destruct (ksp_solve petsc this w1) as [w2 [ierr|e|e|]];
      cbn [fst] in Hev, Hkeep |- *;
      try (split; [by exists ev | by rewrite Hkeep, Hrhs]).
    match goal with |- context [?m w2] =>
      assert (appends m) as Happ; [|assert (unchanged m) as Hunch]
    end.
    { repeat first
        [ apply appends_ksp_get_reason | apply appends_allocated_Field
        | apply appends_get_this | apply appends_unpack_stmt
        | apply appends_bind; [|intros ?]
        | by apply appends_silent
        | case_match ]. }
    { unfold ksp_get_reason.
      repeat first
        [ apply unchanged_bind; [|intros ?]
        | apply unchanged_get_this | apply unchanged_allocated_Field
        | apply unchanged_unpack_stmt
        | done
        | case_match ]. }
    match goal with |- context [?m w2] =>
      destruct (Happ w2) as [ev' Hev']; specialize (Hunch w2)
    end.
    split.
    - exists (ev ++ ev'). rewrite Hev', Hev. by rewrite <- !app_assoc.
    - unfold member in *. rewrite Hunch. by rewrite Hkeep. }
  split; [by apply (Hall b)|]. split; [by apply (Hall b)|].
  intros Hbb'. apply Hall. by rewrite Hbb'.
Qed.

End MoreSession.

Lemma identity_product_demo :
  ∃ w1, MatMult_shell Demo.petsc0 Demo.A5 [7; 8]%Z [0; 0]%Z (Demo.w_setup Demo.petsc0)
        = (w1, [7; 8]%Z, Normal 0%Z).
Proof.
  destruct (identity_product Demo.petsc0 5 (Demo.w_setup Demo.petsc0)
              (Demo.s_setup Demo.petsc0) Demo.A5 [7; 8]%Z [0; 0]%Z)
    as (w1 & Hrun & _).
  - by vm_compute.
  - reflexivity.
  - reflexivity.
  - reflexivity.
  - split; apply (bool_decide_unpack _); vm_compute; exact I.
  - by intros tr c _.
  - cbn. lia.
  - cbn. lia.
  - by exists w1.
Defined.

Lemma solving_keeps_the_session_demo :
  let w1 := after_call Demo.petsc0 Demo.bout0 5 (CallInvert (Demo.field 10 20))
              (Demo.w_setup Demo.petsc0) in
  member operatorFunction 5 w1 = member operatorFunction 5 (Demo.w_setup Demo.petsc0) ∧
  member localmesh 5 w1 = member localmesh 5 (Demo.w_setup Demo.petsc0) ∧
  member matOperator 5 w1 = member matOperator 5 (Demo.w_setup Demo.petsc0) ∧
  member doneSetup 5 w1 = member doneSetup 5 (Demo.w_setup Demo.petsc0).
Proof.
  by apply (solving_keeps_the_session Demo.petsc0 Demo.bout0 5
              (CallInvert (Demo.field 10 20)) (Demo.w_setup Demo.petsc0)).
Defined.


Lemma invert_ignores_packing_failure_demo :
  (∃ events,
     trace (invert (Demo.petsc_without VecGetArray) Demo.bout0 5 (Demo.field 10 20)
              (Demo.w_setup Demo.petsc0)).1
     = trace (Demo.w_setup Demo.petsc0)
       ++ Call VecGetArray :: Call KSPSolve :: events) ∧
  member rhs 5 (invert (Demo.petsc_without VecGetArray) Demo.bout0 5 (Demo.field 10 20)
                  (Demo.w_setup Demo.petsc0)).1
  = Some (Some [0; 0]%Z) ∧
  invert (Demo.petsc_without VecGetArray) Demo.bout0 5 (Demo.field 30 40)
    (Demo.w_setup Demo.petsc0)
  = invert (Demo.petsc_without VecGetArray) Demo.bout0 5 (Demo.field 10 20)
      (Demo.w_setup Demo.petsc0).
Proof.
  destruct (invert_ignores_packing_failure (Demo.petsc_without VecGetArray) Demo.bout0
              5 (Demo.field 10 20) (Demo.field 30 40) (Demo.w_setup Demo.petsc0)
              (Demo.s_setup Demo.petsc0)) as (Htr & Hrhs & Heq).
  - by vm_compute.
  - apply set_up_ready.
  - reflexivity.
  - by vm_compute.
  - split; [exact Htr|]. split; [exact Hrhs|]. by apply Heq.
Defined.

Section MoreSetup.

Context {scalar : Type}.
Implicit Types (w : World scalar) (s : InvertableOperator scalar) (petsc : Petsc scalar).

(** X6.  A [setup()] during which no PETSc call fails sizes everything by
    the number of local elements of a field on the mesh, before it runs off
    the end of its body: the shell matrix is square with that many local
    rows, both vectors have that many entries, the solver has the shell
    matrix as operator and as preconditioner matrix and reads its options
    under the prefix [invert_].  The function and the mesh are as they
    were. *)
Theorem setup_sizes_the_session (petsc : Petsc scalar) (this : nat)
    (w : World scalar) (s : InvertableOperator scalar) :
  objects w !! this = Some s →
  doneSetup s = false →
  all_succeed petsc (trace w) setup_calls →
  (setup petsc this w).2 = Undefined ∧
  ∃ s1 A k b x,
    objects (setup petsc this w).1 !! this = Some s1 ∧
    operatorFunction s1 = operatorFunction s ∧ localmesh s1 = localmesh s ∧
    ready this s1 ∧
    matOperator s1 = Some A ∧
    mat_rows A = length (cells (localmesh s)) ∧
    mat_cols A = length (cells (localmesh s)) ∧
    ksp s1 = Some k ∧ ksp_Amat k = Some A ∧ ksp_Pmat k = Some A ∧
    ksp_prefix k = "invert_" ∧
    rhs s1 = Some b ∧ lhs s1 = Some x ∧
    length b = length (cells (localmesh s)) ∧
    length x = length (cells (localmesh s)).
Proof.
  intros Hs Hd Hok. rewrite (setup_all_succeed petsc this w s Hs Hd Hok).
  split; [done|].
  eexists (set_up petsc this s), _, _, _, _. cbn.
  split; [apply lookup_insert_eq|].
  split; [done|]. split; [done|]. split; [apply set_up_ready|].
  repeat split; try reflexivity; unfold new_Vec; by rewrite length_map, length_seq.
Qed.

(** X7.  [setup()] stops at the first PETSc call that fails: it leaves
    through [CHKERRQ] with the code of that call and has made no call after
    it.  When no call fails it makes all eight, in the order of the body,
    sets the flag and runs off the end of the body. *)
Theorem setup_stops_at_first_failure (petsc : Petsc scalar) (this : nat)
    (w : World scalar) (s : InvertableOperator scalar) :
  objects w !! this = Some s →
  doneSetup s = false →
  match list_find (λ ierr, ierr ≠ 0%Z) (answers petsc (trace w) setup_calls) with
  | Some (n, ierr) =>
      (setup petsc this w).2 = ChkErr ierr ∧
      trace (setup petsc this w).1 = trace w ++ map Call (take (S n) setup_calls) ∧
      flag this (setup petsc this w).1 = Some false
  | None =>
      (setup petsc this w).2 = Undefined ∧
      trace (setup petsc this w).1 = trace w ++ map Call setup_calls ∧
      flag this (setup petsc this w).1 = Some true
  end.
Proof.
  intros Hs Hd. pose proof (setup_cases petsc this w s Hs Hd) as Hrun.
  destruct (list_find _ _) as [[n ierr]|].
  - destruct Hrun as (Hout & Htr & s' & Hs' & Hd' & _).
    split; [done|]. split; [done|]. unfold flag, member. by rewrite Hs', <- Hd'.
  - rewrite Hrun. cbn. split; [done|]. split; [done|].
    unfold flag, member. cbn. by rewrite lookup_insert_eq.
Qed.

End MoreSetup.

Lemma setup_sizes_the_session_demo :
  (setup Demo.petsc0 5 Demo.w_new).2 = Undefined ∧
  ∃ s1 A k b x,
    objects (Demo.w_setup Demo.petsc0) !! 5 = Some s1 ∧
    operatorFunction s1 = identity ∧ localmesh s1 = Demo.m2 ∧
    ready 5 s1 ∧
    matOperator s1 = Some A ∧
    mat_rows A = 2 ∧
    mat_cols A = 2 ∧
    ksp s1 = Some k ∧ ksp_Amat k = Some A ∧ ksp_Pmat k = Some A ∧
    ksp_prefix k = "invert_" ∧
    rhs s1 = Some b ∧ lhs s1 = Some x ∧
    length b = 2 ∧
    length x = 2.
Proof.
  apply (setup_sizes_the_session Demo.petsc0 5 Demo.w_new
           (new_InvertableOperator Demo.bout0 None None)).
  - reflexivity.
  - reflexivity.
  - apply no_error_all_succeed. by intros tr c _.
Defined.

Lemma setup_stops_at_first_failure_demo :
  (setup (Demo.petsc_without KSPCreate) 5 Demo.w_new).2 = ChkErr 1%Z ∧
  trace (setup (Demo.petsc_without KSPCreate) 5 Demo.w_new).1
  = trace Demo.w_new ++ map Call (take 4 setup_calls) ∧
  flag 5 (setup (Demo.petsc_without KSPCreate) 5 Demo.w_new).1 = Some false.
Proof.
  exact (setup_stops_at_first_failure (Demo.petsc_without KSPCreate) 5 Demo.w_new
           (new_InvertableOperator Demo.bout0 None None) eq_refl eq_refl).
Defined.

Section Repeated.

Context {scalar : Type}.
Implicit Types (w : World scalar) (s : InvertableOperator scalar) (petsc : Petsc scalar).
Implicit Types (x b : Field scalar) (v : Vec scalar) (bout : Bout scalar).

Lemma elements_length (f : Field scalar) (vals : list scalar) :
  elements f = Some vals → length vals = length (cells (getMesh f)).
Proof.
  unfold elements. destruct (data f) as [d|]; [|done]. cbn.
  intros Hv. symmetry. by eapply length_mapM.
Qed.

(** A solve on vectors of the right size runs to its end and leaves the
    objects alone. *)
Lemma sized_ksp_iterate petsc A s r :
  registered MATOP_MULT A = Some FunctionWrapper →
  mesh_ok (localmesh s) →
  no_error petsc [MatShellGetContext; VecGetArray; VecRestoreArray;
                  VecGetArrayRead; VecRestoreArrayRead] →
  keeps_shape (localmesh s) (operatorFunction s) →
  sized (length (cells (localmesh s))) r →
  ∀ w, objects w !! mat_ctx A = Some s →
    ∃ w1 ierr sol reason,
      ksp_iterate (MatMult_shell petsc A) r w = (w1, Normal (ierr, sol, reason)) ∧
      length sol = length (cells (localmesh s)) ∧
      objects w1 = objects w.
Proof.
  intros Hreg Hm Hok Hop Hsized.
  induction Hsized as [ierr sol reason Hl|v1 v2 k Hl1 Hl2 Hk IH]; intros w Hs.
  - by eexists w, ierr, sol, reason.
  - cbn [ksp_iterate]. rewrite MatMult_shell_registered by done.
    rewrite (functionWrapper_multiply_with petsc A v1 v2 w s Hs).
    destruct (multiply_with_Normal petsc (operatorFunction s) (localmesh s) v1 v2 w)
      as (w1 & tmp & out & Hrun & Htmp & _ & Hout & Hobj & _);
      [done|apply Hok; set_solver|calls_ok|lia|lia|done|].
    rewrite Hrun. rewrite drop_ge, app_nil_r by lia.
    assert (length out = length (cells (localmesh s))) as Hlo.
    { rewrite (elements_length _ _ Hout). by destruct (Hop tmp Htmp) as [-> _]. }
    destruct (IH 0%Z out Hlo w1)
      as (w2 & e & sol & reason & Hit & Hls & Hobj2).
    { by rewrite Hobj. }
    eexists w2, e, sol, reason. split; [done|]. split; [done|]. congruence.
Qed.

Lemma ksp_solve_run petsc this w s A k r0 l0 w1 ierr sol reason :
  objects w !! this = Some s →
  ksp s = Some k → ksp_Amat k = Some A → rhs s = Some r0 → lhs s = Some l0 →
  ksp_iterate (MatMult_shell petsc A) (ksp_run petsc (trace w) r0 l0)
    (log (Call KSPSolve) w) = (w1, Normal (ierr, sol, reason)) →
  objects w1 = objects w →
  ksp_solve petsc this w
  = (store this (with_ksp (ksp_with_reason reason k) (with_lhs sol s)) w1, Normal ierr).
Proof.
  intros Hs Hk HA Hr Hx Hit Hobj. unfold ksp_solve.
  rewrite (bind_get_this _ _ _ s Hs), Hk, Hr, Hx. cbn. rewrite HA.
  rewrite bind_unfold, Hit. rewrite bind_unfold, (modify_this_run this _ w1 s).
  - done.
  - by rewrite Hobj.
Qed.

(** One [invert] on a session that is set up, with a solver that keeps to
    the size of the vectors. *)
Lemma invert_safe_step petsc bout this b w s :
  objects w !! this = Some s →
  ready this s →
  mesh_ok (localmesh s) →
  allocated_on (localmesh s) b →
  keeps_shape (localmesh s) (operatorFunction s) →
  no_error petsc [MatShellGetContext; KSPGetConvergedReason; VecGetArray;
                  VecRestoreArray; VecGetArrayRead; VecRestoreArrayRead] →
  solver_sized petsc (length (cells (localmesh s))) →
  ∃ s' vals,
    elements b = Some vals ∧
    objects (invert petsc bout this b w).1 !! this = Some s' ∧
    ready this s' ∧ rhs s' = Some vals ∧
    operatorFunction s' = operatorFunction s ∧ localmesh s' = localmesh s ∧
    ((∃ ierr, ierr ≠ 0%Z ∧ (invert petsc bout this b w).2 = ChkErr ierr) ∨
     (∃ reason, (reason ≤ 0)%Z ∧
        (invert petsc bout this b w).2 = Throw (KSPSolveFailed reason)) ∨
     (∃ x sol, (invert petsc bout this b w).2 = Normal x ∧
        allocated_on (localmesh s) x ∧ lhs s' = Some sol ∧ elements x = Some sol)).
Proof.
  intros Hs (Hd & A & k & r0 & x0 & HA & Hk & HkA & Hctx & Hreg & Hr0 & Hx0 & Hlr & Hlx)
    Hm Hb Hop Hok Hsolver.
  set (n := length (cells (localmesh s))) in *.
  destruct (fieldToPetscVec_Normal petsc (localmesh s) b r0 w Hm)
    as (vals & Hv & Hlv & Hpack); [calls_ok | done | lia |].
  fold n in Hpack, Hlv. rewrite drop_ge, app_nil_r in Hpack by lia.
  assert (pack_stmt petsc b r0 w
          = (log (Call VecRestoreArray) (log (Call VecGetArray) w), Normal vals)) as Hps.
  { unfold pack_stmt. by rewrite Hpack. }
  set (w1 := log (Call VecRestoreArray) (log (Call VecGetArray) w)) in *.
  set (s1 := with_rhs vals s).
  assert (objects (store this s1 w1) !! this = Some s1) as Hs1 by apply lookup_insert_eq.
  destruct (sized_ksp_iterate petsc A s1
              (ksp_run petsc (trace (store this s1 w1)) vals x0) Hreg Hm)
    with (w := log (Call KSPSolve) (store this s1 w1))
    as (w2 & ierr & sol & reason & Hit & Hls & Hobj2).
  { calls_ok. }
  { done. }
  { apply Hsolver; [done|]. by rewrite Hlx. }
  { by rewrite Hctx. }
  pose proof (ksp_solve_run petsc this (store this s1 w1) s1 A k vals x0 w2 ierr sol
                reason Hs1 Hk HkA eq_refl Hx0 Hit Hobj2) as Hsolve.
  set (s2 := with_ksp (ksp_with_reason reason k) (with_lhs sol s1)) in *.
  assert (ready this s2) as Hready.
  { split; [done|]. by eexists A, _, vals, sol. }
  assert (localmesh s = getMesh b) as Hmesh by (by destruct Hb as [-> _]).
  rewrite (invert_to_solve petsc bout this b w s r0 w1 vals (store this s2 w2) ierr)
    by done.
  exists s2, vals. split; [done|].
  assert (objects (store this s2 w2) !! this = Some s2) as Hs2 by apply lookup_insert_eq.
  rewrite bind_unfold. unfold CHKERRQ.
  destruct (decide (ierr = 0%Z)) as [->|Hne].
  2:{ cbn. split; [done|]. do 4 (split; [done|]). left. by exists ierr. }
  rewrite bind_unfold, (ksp_get_reason_run petsc this _ s2 _ Hs2 eq_refl).
  rewrite (Hok _ KSPGetConvergedReason) by set_solver. rewrite decide_True by done.
  cbn [ksp_reason ksp_with_reason].
  destruct (decide (reason ≤ 0)%Z) as [Hr|Hr].
  { cbn. split; [done|]. do 4 (split; [done|]). right. left. by exists reason. }
  rewrite bind_unfold, allocated_Field_run.
  rewrite (bind_get_this _ _ _ s2) by done. cbn [lhs s2 with_ksp with_lhs].
  destruct (petscVecToField_Normal petsc (localmesh s) (fresh_Field petsc (localmesh s))
              sol (log (Allocate (localmesh s))
                     (log (Call KSPGetConvergedReason) (store this s2 w2))) Hm)
    as (x & Hun & Hx & Hel & _);
    [calls_ok | apply allocated_fresh_Field | rewrite Hls; apply Nat.le_refl |].
  unfold unpack_stmt. rewrite Hun. cbn.
  split; [by rewrite lookup_insert_eq|]. do 4 (split; [done|]).
  right. right. exists x, sol. split; [done|]. split; [done|]. split; [done|].
  rewrite Hel, take_ge; [done|]. rewrite Hls. apply Nat.le_refl.
Qed.

(** X8.  On a session that is set up, when [MatShellGetContext],
    [KSPGetConvergedReason] and the four accessors succeed, with an operator
    that keeps the shape of fields and a solver that keeps to the size of
    the vectors, [invert(b)] for an allocated [b] on the mesh of the session
    stays inside its arrays and ends in one of three ways: through
    [CHKERRQ] with the non-zero code of [KSPSolve], with the exception for a
    reason that is not positive, or with an allocated field whose elements
    are the entries of the solution vector.  In each case the right-hand
    side vector holds the elements of [b], and the session is set up as
    before, with the same function and mesh. *)
Theorem invert_is_safe (petsc : Petsc scalar) (bout : Bout scalar) (this : nat)
    (b : Field scalar) (w : World scalar) (s : InvertableOperator scalar) :
  objects w !! this = Some s →
  ready this s →
  mesh_ok (localmesh s) →
  allocated_on (localmesh s) b →
  keeps_shape (localmesh s) (operatorFunction s) →
  no_error petsc [MatShellGetContext; KSPGetConvergedReason; VecGetArray;
                  VecRestoreArray; VecGetArrayRead; VecRestoreArrayRead] →
  solver_sized petsc (length (cells (localmesh s))) →
  ∃ s' vals,
    elements b = Some vals ∧
    objects (invert petsc bout this b w).1 !! this = Some s' ∧
    ready this s' ∧ rhs s' = Some vals ∧
    operatorFunction s' = operatorFunction s ∧ localmesh s' = localmesh s ∧
    ((∃ ierr, ierr ≠ 0%Z ∧ (invert petsc bout this b w).2 = ChkErr ierr) ∨
     (∃ reason, (reason ≤ 0)%Z ∧
        (invert petsc bout this b w).2 = Throw (KSPSolveFailed reason)) ∨
     (∃ x sol, (invert petsc bout this b w).2 = Normal x ∧
        allocated_on (localmesh s) x ∧ lhs s' = Some sol ∧ elements x = Some sol)).
Proof. apply invert_safe_step. Qed.

(** X9.  [invert] may be called any number of times after one [setup()]:
    under the conditions of X8, after any sequence of [invert] calls the
    session is still set up, and the next [invert(b)] gives the solver the
    elements of [b] as right-hand side, whatever was solved before, and
    never leaves its arrays. *)
Theorem invert_may_be_repeated `{BoutRealOps scalar} (petsc : Petsc scalar)
    (bout : Bout scalar) (this : nat) (bs : list (Field scalar)) (b : Field scalar)
    (w : World scalar) (s : InvertableOperator scalar) :
  objects w !! this = Some s →
  ready this s →
  mesh_ok (localmesh s) →
  keeps_shape (localmesh s) (operatorFunction s) →
  no_error petsc [MatShellGetContext; KSPGetConvergedReason; VecGetArray;
                  VecRestoreArray; VecGetArrayRead; VecRestoreArrayRead] →
  solver_sized petsc (length (cells (localmesh s))) →
  Forall (allocated_on (localmesh s)) bs →
  allocated_on (localmesh s) b →
  let w1 := after_calls petsc bout this (CallInvert <$> bs) w in
  ∃ s1 vals,
    objects w1 !! this = Some s1 ∧ ready this s1 ∧
    elements b = Some vals ∧
    member rhs this (invert petsc bout this b w1).1 = Some (Some vals) ∧
    (invert petsc bout this b w1).2 ≠ Undefined.
Proof.
  intros Hs Hr Hm Hop Hok Hsolver Hbs Hb w1. subst w1.
  remember (localmesh s) as m eqn:Em. remember (operatorFunction s) as op eqn:Eop.
  revert w s Hs Hr Em Eop.
  induction Hbs as [|b0 bs Hb0 Hbs IH]; intros w s Hs Hr -> ->.
  - cbn. destruct (invert_safe_step petsc bout this b w s)
      as (s' & vals & Hv & Hs' & _ & Hrhs & _ & _ & Hout); try done.
    exists s, vals. split; [done|]. split; [done|]. split; [done|]. split.
    + unfold member. by rewrite Hs', <- Hrhs.
    + destruct Hout as [(e & _ & ->)|[(r & _ & ->)|(x & sol & -> & _)]]; done.
  - cbn. destruct (invert_safe_step petsc bout this b0 w s)
      as (s' & _ & _ & Hs' & Hr' & _ & Hop' & Hlm' & _); try done.
    by eapply IH.
Qed.

End Repeated.

Lemma demo_solver_sized : solver_sized Demo.petsc0 2.
Proof.
  intros tr b x Hb Hx. cbn. constructor; [done|done|].
  intros ierr v Hv. by constructor.
Qed.

Lemma invert_is_safe_demo :
  ∃ s' vals,
    elements (Demo.field 10 20) = Some vals ∧
    objects (invert Demo.petsc0 Demo.bout0 5 (Demo.field 10 20)
               (Demo.w_setup Demo.petsc0)).1 !! 5 = Some s' ∧
    ready 5 s' ∧ rhs s' = Some vals.
Proof.
  destruct (invert_is_safe Demo.petsc0 Demo.bout0 5 (Demo.field 10 20)
              (Demo.w_setup Demo.petsc0) (Demo.s_setup Demo.petsc0))
    as (s' & vals & Hv & Hs' & Hr & Hrhs & _).
  - by vm_compute.
  - apply set_up_ready.
  - split; apply (bool_decide_unpack _); vm_compute; exact I.
  - split; [done|]. by exists [10; 20]%Z.
  - by intros x Hx.
  - by intros tr c _.
  - apply demo_solver_sized.
  - by exists s', vals.
Defined.

Lemma invert_may_be_repeated_demo :
  let w1 := after_calls Demo.petsc0 Demo.bout0 5
              (CallInvert <$> [Demo.field 10 20; Demo.field 1 2])
              (Demo.w_setup Demo.petsc0) in
  ∃ s1 vals,
    objects w1 !! 5 = Some s1 ∧ ready 5 s1 ∧
    elements (Demo.field 3 4) = Some vals ∧
    member rhs 5 (invert Demo.petsc0 Demo.bout0 5 (Demo.field 3 4) w1).1
    = Some (Some vals) ∧
    (invert Demo.petsc0 Demo.bout0 5 (Demo.field 3 4) w1).2 ≠ Undefined.
Proof.
  apply (invert_may_be_repeated Demo.petsc0 Demo.bout0 5
           [Demo.field 10 20; Demo.field 1 2] (Demo.field 3 4)
           (Demo.w_setup Demo.petsc0) (Demo.s_setup Demo.petsc0)).
  - by vm_compute.
  - apply set_up_ready.
  - split; apply (bool_decide_unpack _); vm_compute; exact I.
  - by intros x Hx.
  - by intros tr c _.
  - apply demo_solver_sized.
  - repeat constructor; by eexists.
  - split; [done|]. by eexists.
Defined.

Section Lifetime.

Context {scalar : Type}.
Implicit Types (w : World scalar) (s : InvertableOperator scalar) (petsc : Petsc scalar).
Implicit Types (x b : Field scalar) (v : Vec scalar) (bout : Bout scalar).

(** *** Calls that keep a property of the object

    The property is any that the assignments to the vectors and to the
    solver keep. *)

Section Preserved.

Context (P : InvertableOperator scalar → Prop).
Hypothesis P_with_rhs : ∀ v s, P s → P (with_rhs v s).
Hypothesis P_with_lhs : ∀ v s, P s → P (with_lhs v s).
Hypothesis P_with_ksp : ∀ k s, P s → P (with_ksp k s).

Lemma unchanged_preserves {A} this (m : M scalar A) :
  unchanged m → preserves P this m.
Proof. intros Hm w (s & Hs & HP). exists s. by rewrite Hm. Qed.

Lemma preserves_pure {A} this (m : M scalar A) :
  (∀ w, (m w).1 = w) → preserves P this m.
Proof. intros Hm w Hw. by rewrite Hm. Qed.

Lemma preserves_bind {A B} this (m : M scalar A) (f : A → M scalar B) :
  preserves P this m → (∀ a, preserves P this (f a)) → preserves P this (m ≫= f).
Proof.
  intros Hm Hf w Hw. rewrite bind_unfold. specialize (Hm w Hw).
  destruct (m w) as [w1 [a|e|e|]]; cbn in *; [|done..].
  by apply Hf.
Qed.

Lemma preserves_modify_this this f :
  (∀ s, P s → P (f s)) → preserves P this (modify_this this f).
Proof.
  intros Hf w (s & Hs & HP). rewrite (modify_this_run this f w s Hs).
  exists (f s). split; [apply lookup_insert_eq|by apply Hf].
Qed.

Lemma preserves_ksp_solve petsc this : preserves P this (ksp_solve petsc this).
Proof.
  unfold ksp_solve.
  apply preserves_bind; [apply unchanged_preserves, unchanged_get_this|].
  intros s. repeat case_match; try by apply preserves_pure.
  apply preserves_bind.
  - apply unchanged_preserves. intros w.
    rewrite ksp_iterate_objects; [done|]. apply MatMult_shell_objects.
  - intros [[ierr x'] reason].
    apply preserves_bind; [|by intros; apply preserves_pure].
    apply preserves_modify_this.
    intros s' Hs'. by apply P_with_ksp, P_with_lhs.
Qed.

Lemma preserves_invert petsc bout this b :
  preserves P this (invert petsc bout this b).
Proof.
  unfold invert, ASSERT2, ksp_get_reason.
  repeat first
    [ apply preserves_ksp_solve
    | apply preserves_modify_this; intros; by apply P_with_rhs
    | apply unchanged_preserves;
      first [ apply unchanged_get_this | apply unchanged_pack_stmt
            | apply unchanged_unpack_stmt | apply unchanged_allocated_Field ]
    | apply preserves_bind; [|intros ?]
    | case_match
    | by apply preserves_pure
    | apply unchanged_preserves; by intros ? ].
Qed.

Lemma preserves_verify `{BoutRealOps scalar} petsc bout this b tol :
  preserves P this (verify petsc bout this b tol).
Proof.
  unfold verify. case_decide; [|by apply preserves_pure].
  apply preserves_bind.
  - intros w Hw. unfold returned_T. pose proof (preserves_invert petsc bout this b w Hw).
    by destruct (invert petsc bout this b w) as [w1 [a|e|e|]].
  - intros x. apply preserves_bind.
    + apply unchanged_preserves, unchanged_operator_call.
    + intros y. repeat case_match; by apply preserves_pure.
Qed.

End Preserved.

Lemma after_call_created `{BoutRealOps scalar} petsc bout this c w :
  holds created this w → holds created this (after_call petsc bout this c w).
Proof.
  intros Hw. destruct c; cbn.
  - apply (preserves_modify_this created this (with_operatorFunction func)); [|done].
    by intros s Hs.
  - by apply (unchanged_preserves created this _ (unchanged_operator_call this input)).
  - by apply (unchanged_preserves created this _ (unchanged_operator_call this input)).
  - rewrite setup_when_done; [done|]. destruct Hw as (s & Hs & Hd & _).
    unfold flag, member. by rewrite Hs, <- Hd.
  - apply preserves_invert; try done;
      intros ? s (Hd & Hk & HA & Hr & Hl); repeat split; try done; by eexists.
  - apply preserves_verify; try done;
      intros ? s (Hd & Hk & HA & Hr & Hl); repeat split; try done; by eexists.
Qed.

Lemma after_call_untouched `{BoutRealOps scalar} petsc bout this c w :
  is_CallSetup c = false →
  holds untouched this w → holds untouched this (after_call petsc bout this c w).
Proof.
  intros Hc Hw.
  assert (flag this w = Some false) as Hf.
  { destruct Hw as (s & Hs & Hd & _). unfold flag, member. by rewrite Hs, <- Hd. }
  destruct c; cbn; try done.
  - apply (preserves_modify_this untouched this (with_operatorFunction func)); [|done].
    by intros s Hs.
  - by apply (unchanged_preserves untouched this _ (unchanged_operator_call this input)).
  - by apply (unchanged_preserves untouched this _ (unchanged_operator_call this input)).
  - by rewrite invert_when_not_done.
  - unfold verify. case_decide; [|done].
    rewrite bind_unfold. unfold returned_T. by rewrite invert_when_not_done.
Qed.

(** X10.  A [setup()] during which no PETSc call fails leaves the session
    with its four PETSc objects created.  On a session in that state,
    whatever member calls follow, the destructor hands four created objects
    to PETSc; the object is gone afterwards. *)
Theorem destructor_after_setup `{BoutRealOps scalar} (petsc : Petsc scalar)
    (bout : Bout scalar) (this : nat) (w : World scalar)
    (s : InvertableOperator scalar) :
  objects w !! this = Some s →
  doneSetup s = false →
  all_succeed petsc (trace w) setup_calls →
  holds created this (setup petsc this w).1 ∧
  ∀ (petsc' : Petsc scalar) (w1 : World scalar) (cs : list (MemberCall scalar)),
    holds created this w1 →
    let w2 := after_calls petsc' bout this cs w1 in
    destructor this w2
    = ({| objects := delete this (objects w2); trace := trace w2 |}, Normal ()) ∧
    objects (destructor this w2).1 !! this = None.
Proof.
  intros Hs Hd Hok. split.
  { rewrite (setup_all_succeed petsc this w s Hs Hd Hok).
    exists (set_up petsc this s). split; [apply lookup_insert_eq|].
    by repeat split. }
  intros petsc' w1 cs Hw1 w2.
  assert (holds created this w2) as (s2 & Hs2 & _ & [k Hk] & [A HA] & [r Hr] & [l Hl]).
  { subst w2. revert w1 Hw1.
    induction cs as [|c cs IH]; intros w1 Hw1; [done|].
    cbn. apply IH. by apply after_call_created. }
  assert (destructor this w2
          = ({| objects := delete this (objects w2); trace := trace w2 |}, Normal ()))
    as Hdes.
  { unfold destructor. by rewrite (bind_get_this _ _ _ s2 Hs2), Hk, HA, Hr, Hl. }
  split; [done|]. rewrite Hdes. cbn. apply lookup_delete_eq.
Qed.

(** X11.  On an object that was constructed and never set up, whatever
    other member calls were made, the destructor hands PETSc handles that
    no call has created. *)
Theorem destructor_without_setup `{BoutRealOps scalar} (petsc : Petsc scalar)
    (bout : Bout scalar) (this : nat) (func : option (function_signature scalar))
    (lm : option Mesh) (w0 : World scalar) (cs : list (MemberCall scalar)) :
  Forall (λ c, is_CallSetup c = false) cs →
  let w := after_calls petsc bout this cs (construct bout this func lm w0).1 in
  holds untouched this w ∧
  destructor this w = (w, Undefined).
Proof.
  intros Hcs w.
  assert (holds untouched this w) as Hw.
  { subst w.
    assert (holds untouched this (construct bout this func lm w0).1) as Hw.
    { eexists. split; [apply lookup_insert_eq|done]. }
    revert Hw. generalize (construct bout this func lm w0).1.
    induction Hcs as [|c cs Hc Hcs IH]; intros w Hw; [exact Hw|].
    cbn. apply IH. by apply after_call_untouched. }
  split; [done|]. destruct Hw as (s & Hs & _ & Hk & _).
  unfold destructor. by rewrite (bind_get_this _ _ _ s Hs), Hk.
Qed.

(** X12.  The code that [petscVecToField] returns is dropped by [invert]:
    when the solve has ended with code 0, [KSPGetConvergedReason] has
    given a positive reason and [VecGetArrayRead] then fails, [invert]
    returns the field as [allocate()] left it, with none of the solution in
    it. *)
Theorem invert_ignores_unpacking_failure (petsc : Petsc scalar) (bout : Bout scalar)
    (this : nat) (b : Field scalar) (w w1 w2 : World scalar)
    (s s2 : InvertableOperator scalar) (r0 r1 sol : Vec scalar) (k2 : KSP) :
  objects w !! this = Some s → doneSetup s = true → rhs s = Some r0 →
  (2 ≤ CHECK bout → localmesh s = getMesh b) →
  pack_stmt petsc b r0 w = (w1, Normal r1) →
  ksp_solve petsc this (store this (with_rhs r1 s) w1) = (w2, Normal 0%Z) →
  objects w2 !! this = Some s2 → ksp s2 = Some k2 → lhs s2 = Some sol →
  ierr_of petsc (trace w2) KSPGetConvergedReason = 0%Z →
  (0 < ksp_reason k2)%Z →
  ierr_of petsc (trace w2 ++ [Call KSPGetConvergedReason; Allocate (localmesh s)])
    VecGetArrayRead ≠ 0%Z →
  invert petsc bout this b w
  = (log (Call VecGetArrayRead)
       (log (Allocate (localmesh s)) (log (Call KSPGetConvergedReason) w2)),
     Normal (fresh_Field petsc (localmesh s))).
Proof.
  intros Hs Hd Hr0 Hmesh Hpack Hsolve Hs2 Hk2 Hlhs Hget Hreason Hfail.
  rewrite (invert_after_reason petsc bout this b w s r0 w1 r1 w2 s2 k2) by done.
  rewrite decide_False by lia.
  rewrite bind_unfold, allocated_Field_run.
  rewrite (bind_get_this _ _ _ s2) by done. rewrite Hlhs.
  unfold unpack_stmt, petscVecToField, petsc_call. cbn [log trace].
  rewrite <- app_assoc. cbn [app]. by rewrite decide_False.
Qed.

End Lifetime.

Section MaxError.

Context {scalar : Type} `{BoutRealOps scalar}.

(** [<] on [BoutReal] is irreflexive and transitive (also where values are
    not comparable). *)
Hypothesis rlt_irrefl : ∀ a, rlt a a = false.
Hypothesis rlt_trans : ∀ a b c, rlt a b = true → rlt b c = true → rlt a c = true.

Lemma running_maximum (vals : list scalar) :
  ∀ init,
    let r := foldl (λ acc v, if rlt acc v then v else acc) init vals in
    (∀ v, v ∈ vals → rlt r v = false) ∧
    (r = init ∨ rlt init r = true) ∧
    (r = init ∨ r ∈ vals).
Proof.
  induction vals as [|v vals IH]; intros init; cbn.
  - split; [by intros v Hv; apply elem_of_nil in Hv|]. split; by left.
  - destruct (IH (if rlt init v then v else init)) as (Hb & Hi & Hm).
    set (r := foldl _ _ vals) in *.
    destruct (rlt init v) eqn:Hiv.
    + split; [|split].
      * intros u Hu. apply elem_of_cons in Hu as [->|Hu]; [|by apply Hb].
        destruct Hi as [->|Hi]; [done|].
        destruct (rlt r v) eqn:Hrv; [|done].
        pose proof (rlt_trans _ _ _ Hi Hrv) as Hc. by rewrite rlt_irrefl in Hc.
      * right. destruct Hi as [->|Hi]; [done|]. by eapply rlt_trans.
      * right. destruct Hm as [->|Hm]; [left|by right].
    + split; [|split; [done|]].
      * intros u Hu. apply elem_of_cons in Hu as [->|Hu]; [|by apply Hb].
        destruct Hi as [->|Hi]; [done|].
        destruct (rlt r v) eqn:Hrv; [|done].
        by rewrite (rlt_trans _ _ _ Hi Hrv) in Hiv.
      * destruct Hm as [->|Hm]; [by left|by right; right].
Qed.

(** The two loops visit the elements of the slice one after the other. *)
Lemma local_max_error_flat (msh : Bounds) (error : Z → Z → Z → scalar) :
  local_max_error msh error
  = foldl (λ acc v, if rlt acc v then v else acc)
      (error (xstart msh) (ystart msh) 0%Z)
      (jx ← seqZ (xstart msh) (xend msh - xstart msh + 1);
       (λ jz, error jx (ystart msh) jz) <$> seqZ 0 (LocalNz msh)).
Proof.
  unfold local_max_error. generalize (error (xstart msh) (ystart msh) 0%Z).
  induction (seqZ (xstart msh) (xend msh - xstart msh + 1)) as [|jx xs IH];
    intros init; [done|].
  cbn. rewrite foldl_app, foldl_fmap. apply IH.
Qed.

(** X13.  [max_error_at_ystart] hands to the reduction a value that no
    element of the slice [xstart..xend] by [0..LocalNz-1] at [ystart]
    exceeds, nor the element at [(xstart, ystart, 0)] from which the loops
    start; the value is that element or an element of the slice. *)
Theorem max_error_is_the_maximum (allreduce : scalar → scalar) (msh : Bounds)
    (error : Z → Z → Z → scalar) :
  let r := local_max_error msh error in
  max_error_at_ystart allreduce msh error = allreduce r ∧
  (∀ jx jz, (xstart msh ≤ jx ≤ xend msh)%Z → (0 ≤ jz < LocalNz msh)%Z →
            rlt r (error jx (ystart msh) jz) = false) ∧
  rlt r (error (xstart msh) (ystart msh) 0%Z) = false ∧
  (r = error (xstart msh) (ystart msh) 0%Z ∨
   ∃ jx jz, (xstart msh ≤ jx ≤ xend msh)%Z ∧ (0 ≤ jz < LocalNz msh)%Z ∧
            r = error jx (ystart msh) jz).
Proof.
  intros r. split; [done|]. subst r. rewrite local_max_error_flat.
  match goal with |- context [foldl ?f ?i ?l] =>
    destruct (running_maximum l i) as (Hb & Hi & Hm); set (r := foldl f i l) in *
  end.
  split; [|split].
  - intros jx jz Hx Hz. apply Hb. apply list_elem_of_bind. exists jx. split.
    + apply list_elem_of_fmap. exists jz. split; [done|]. apply elem_of_seqZ. lia.
    + apply elem_of_seqZ. lia.
  - destruct Hi as [->|Hi]; [done|].
    destruct (rlt r _) eqn:Hr; [|done].
    pose proof (rlt_trans _ _ _ Hi Hr) as Hc. by rewrite rlt_irrefl in Hc.
  - destruct Hm as [Hm|Hm]; [by left|right].
    apply list_elem_of_bind in Hm as (jx & Hm & Hx).
    apply list_elem_of_fmap in Hm as (jz & -> & Hz).
    apply elem_of_seqZ in Hx, Hz. exists jx, jz. split; [lia|]. split; [lia|done].
Qed.

End MaxError.

Section MaxErrorEdge.

Context {scalar : Type} `{BoutRealOps scalar}.

(** X14.  When the slice is empty ([xend < xstart] or [LocalNz <= 0]) the
    loops do nothing, and [max_error_at_ystart] still reads the element at
    [(xstart, ystart, 0)] and hands it to the reduction. *)
Theorem max_error_of_empty_slice (allreduce : scalar → scalar) (msh : Bounds)
    (error : Z → Z → Z → scalar) :
  (xend msh < xstart msh)%Z ∨ (LocalNz msh ≤ 0)%Z →
  max_error_at_ystart allreduce msh error
  = allreduce (error (xstart msh) (ystart msh) 0%Z).
Proof.
  intros Hempty. unfold max_error_at_ystart, local_max_error. f_equal.
  destruct Hempty as [Hx|Hz].
  - by rewrite (seqZ_nil (xstart msh)) by lia.
  - rewrite (seqZ_nil 0) by lia. cbn.
    generalize (error (xstart msh) (ystart msh) 0%Z).
    induction (seqZ _ _) as [|jx xs IH]; intros init; [done|]. cbn. apply IH.
Qed.

End MaxErrorEdge.

Section Callback.

Context {scalar : Type}.
Implicit Types (w : World scalar) (s : InvertableOperator scalar) (petsc : Petsc scalar).

(** X15.  [functionWrapper] reports to the solver the code of
    [MatShellGetContext] and nothing else, and goes on only when that code
    is 0: the codes of the two marshalling calls are dropped, so the solver
    never receives a non-zero code from the callback.  When
    [MatShellGetContext] succeeds and [VecGetArrayRead] then fails, the
    solver receives the code 0 with a product that is made from the scratch
    field as [allocate()] left it.  When [MatShellGetContext] fails, the
    context is read without having been written. *)
Theorem callback_reports_only_context_code (petsc : Petsc scalar) (A : Mat)
    (v1 v2 : Vec scalar) (w : World scalar) :
  ((functionWrapper petsc A v1 v2 w).2 = Normal 0%Z ∨
   (functionWrapper petsc A v1 v2 w).2 = Undefined) ∧
  (ierr_of petsc (trace w) MatShellGetContext ≠ 0%Z →
   functionWrapper petsc A v1 v2 w = (log (Call MatShellGetContext) w, v2, Undefined)) ∧
  (∀ s, objects w !! mat_ctx A = Some s →
        ierr_of petsc (trace w) MatShellGetContext = 0%Z →
        ierr_of petsc (trace w ++ [Call MatShellGetContext; Allocate (localmesh s)])
          VecGetArrayRead ≠ 0%Z →
        mesh_ok (localmesh s) →
        keeps_shape (localmesh s) (operatorFunction s) →
        no_error petsc [VecGetArray; VecRestoreArray] →
        length (cells (localmesh s)) ≤ length v2 →
        ∃ w1 out,
          elements (operatorFunction s (fresh_Field petsc (localmesh s))) = Some out ∧
          functionWrapper petsc A v1 v2 w
          = (w1, out ++ drop (length (cells (localmesh s))) v2, Normal 0%Z)).
Proof.
  split; [|split].
  - unfold functionWrapper. cbn [petsc_call].
    case_decide as Hctx; [|by right]. rewrite Hctx.
    destruct (objects _ !! mat_ctx A) as [s|]; [|by right].
    match goal with |- context [match ?r with _ => _ end] =>
      destruct r as [w1 [a|e|e|]]
    end; [by left|by right..].
  - apply functionWrapper_without_context.
  - intros s Hs Hctx Hfail Hm Hop Hok Hlen.
    rewrite (functionWrapper_multiply_with petsc A v1 v2 w s Hs).
    unfold multiply_with. cbn [petsc_call]. rewrite Hctx, decide_True by done.
    rewrite !bind_unfold, allocated_Field_run, !bind_unfold.
    assert (unpack_stmt petsc v1 (fresh_Field petsc (localmesh s))
              (log (Allocate (localmesh s)) (log (Call MatShellGetContext) w))
            = (log (Call VecGetArrayRead)
                 (log (Allocate (localmesh s)) (log (Call MatShellGetContext) w)),
               Normal (fresh_Field petsc (localmesh s)))) as ->.
    { unfold unpack_stmt, petscVecToField, petsc_call. cbn [log trace].
      rewrite <- app_assoc. cbn [app]. by rewrite decide_False. }
    destruct (fieldToPetscVec_Normal petsc (localmesh s)
                (operatorFunction s (fresh_Field petsc (localmesh s))) v2
                (log (Call VecGetArrayRead)
                   (log (Allocate (localmesh s)) (log (Call MatShellGetContext) w))) Hm)
      as (out & Hout & _ & Hpack); [done | apply Hop, allocated_fresh_Field | done |].
    eexists _, out. split; [done|]. unfold pack_stmt. by rewrite Hpack.
Qed.

End Callback.

Lemma destructor_after_setup_demo :
  holds created 5 (Demo.w_setup Demo.petsc0) ∧
  let w2 := after_calls Demo.petsc0 Demo.bout0 5 [CallInvert (Demo.field 10 20)]
              (Demo.w_setup Demo.petsc0) in
  destructor 5 w2
  = ({| objects := delete 5 (objects w2); trace := trace w2 |}, Normal ()) ∧
  objects (destructor 5 w2).1 !! 5 = None.
Proof.
  destruct (destructor_after_setup Demo.petsc0 Demo.bout0 5 Demo.w_new
              (new_InvertableOperator Demo.bout0 None None)) as [Hc Hdes].
  - reflexivity.
  - reflexivity.
  - apply no_error_all_succeed. by intros tr c _.
  - split; [exact Hc|]. by apply Hdes.
Defined.

Lemma destructor_without_setup_demo :
  let w := after_calls Demo.petsc0 Demo.bout0 5 [CallApply (Demo.field 1 2)]
             (construct Demo.bout0 5 None None Demo.w0).1 in
  holds untouched 5 w ∧ destructor 5 w = (w, Undefined).
Proof.
  apply (destructor_without_setup Demo.petsc0 Demo.bout0 5 None None Demo.w0).
  by repeat constructor.
Defined.

Lemma invert_ignores_unpacking_failure_demo :
  (invert (Demo.petsc_direct_without VecGetArrayRead) Demo.bout0 5 (Demo.field 10 20)
     (Demo.w_setup Demo.petsc0)).2
  = Normal (Demo.field 0 0).
Proof.
  erewrite (invert_ignores_unpacking_failure (Demo.petsc_direct_without VecGetArrayRead)
              Demo.bout0 5 (Demo.field 10 20) (Demo.w_setup Demo.petsc0) _ _
              (Demo.s_setup Demo.petsc0)).
  - reflexivity.
  - by vm_compute.
  - reflexivity.
  - reflexivity.
  - reflexivity.
  - vm_compute. reflexivity.
  - vm_compute. reflexivity.
  - vm_compute. reflexivity.
  - reflexivity.
  - reflexivity.
  - by vm_compute.
  - by vm_compute.
  - by vm_compute.
Defined.

Lemma max_error_is_the_maximum_demo :
  let r := local_max_error Demo.slice Demo.err in
  max_error_at_ystart id Demo.slice Demo.err = r ∧
  (∀ jx jz, (1 ≤ jx ≤ 2)%Z → (0 ≤ jz < 2)%Z → (r <? Demo.err jx 0 jz)%Z = false) ∧
  (r <? Demo.err 1 0 0)%Z = false ∧
  (r = Demo.err 1 0 0 ∨
   ∃ jx jz, (1 ≤ jx ≤ 2)%Z ∧ (0 ≤ jz < 2)%Z ∧ r = Demo.err jx 0 jz).
Proof.
  apply (max_error_is_the_maximum (H:=Demo.Z_ops)).
  - intros a. apply Z.ltb_irrefl.
  - intros a b c Hab Hbc. apply Z.ltb_lt in Hab, Hbc. apply Z.ltb_lt. lia.
Defined.

Lemma max_error_of_empty_slice_demo :
  max_error_at_ystart id {| xstart := 3; xend := 2; ystart := 0; LocalNz := 2 |} Demo.err
  = Demo.err 3 0 0.
Proof.
  apply (max_error_of_empty_slice (H:=Demo.Z_ops) id
           {| xstart := 3; xend := 2; ystart := 0; LocalNz := 2 |}).
  left. cbn. lia.
Defined.

Lemma callback_reports_only_context_code_demo :
  ∃ w1 out,
    elements (identity (fresh_Field (Demo.petsc_direct_without VecGetArrayRead) Demo.m2))
    = Some out ∧
    functionWrapper (Demo.petsc_direct_without VecGetArrayRead) Demo.A5
      [7; 8]%Z [5; 6]%Z (Demo.w_setup Demo.petsc0)
    = (w1, out ++ drop 2 [5; 6]%Z, Normal 0%Z).
Proof.
  destruct (callback_reports_only_context_code
              (Demo.petsc_direct_without VecGetArrayRead) Demo.A5 [7; 8]%Z [5; 6]%Z
              (Demo.w_setup Demo.petsc0)) as (_ & _ & H).
  apply (H (Demo.s_setup Demo.petsc0)).
  - by vm_compute.
  - by vm_compute.
  - by vm_compute.
  - split; apply (bool_decide_unpack _); vm_compute; exact I.
  - by intros x Hx.
  - intros tr c Hc. cbn. case_decide; [|done]. subst c.
    exfalso. revert Hc. apply (bool_decide_unpack _). vm_compute. exact I.
  - cbn. lia.
Defined.

Section Products.

Context {scalar : Type}.
Implicit Types (w : World scalar) (s : InvertableOperator scalar) (petsc : Petsc scalar).

Lemma mjoin_replicate_S {X} (x : list X) (k : nat) :
  mjoin (replicate (S k) x) = x ++ mjoin (replicate k x).
Proof. reflexivity. Qed.

Lemma product_events_allocations (lm : Mesh) (k : nat) :
  length (filter (λ e, e = Allocate lm) (mjoin (replicate k (product_events lm)))) = k.
Proof.
  induction k as [|k IH]; [done|].
  rewrite mjoin_replicate_S, filter_app, length_app, IH.
  unfold product_events.
  repeat (rewrite filter_cons; case_decide; simplify_eq).
  by rewrite filter_nil.
Qed.

(** X16.  In a solve on a session that is set up, during which
    [MatShellGetContext] and the accessors succeed, every product that the
    solver asks for adds six events: the look-up of the context, one
    allocation of a scratch field, and the four accessor calls of the two
    copies.  A solve of [k] products has these six events [k] times over,
    and so allocates [k] fields. *)
Theorem one_allocation_per_product (petsc : Petsc scalar) (A : Mat)
    (s : InvertableOperator scalar) (r : KspRun scalar) (w : World scalar) :
  registered MATOP_MULT A = Some FunctionWrapper →
  mesh_ok (localmesh s) →
  no_error petsc [MatShellGetContext; VecGetArray; VecRestoreArray;
                  VecGetArrayRead; VecRestoreArrayRead] →
  keeps_shape (localmesh s) (operatorFunction s) →
  sized (length (cells (localmesh s))) r →
  objects w !! mat_ctx A = Some s →
  let k := products (MatMult_shell petsc A) r w in
  let events := mjoin (replicate k (product_events (localmesh s))) in
  trace (ksp_iterate (MatMult_shell petsc A) r w).1 = trace w ++ events ∧
  length (filter (λ e, e = Allocate (localmesh s)) events) = k ∧
  length events = 6 * k.
Proof.
  intros Hreg Hm Hok Hop Hsized Hs k events.
  split; [|split; [apply product_events_allocations|]].
  2:{ subst events. generalize k. clear. intros k.
      induction k as [|k IH]; [done|].
      rewrite mjoin_replicate_S, length_app, IH. cbn. lia. }
  subst events k. revert w Hs.
  induction Hsized as [ierr sol reason Hl|v1 v2 k Hl1 Hl2 Hk IH]; intros w Hs.
  - cbn. by rewrite app_nil_r.
  - cbn [ksp_iterate products]. rewrite MatMult_shell_registered by done.
    rewrite (functionWrapper_multiply_with petsc A v1 v2 w s Hs).
    destruct (multiply_with_Normal petsc (operatorFunction s) (localmesh s) v1 v2 w)
      as (w1 & tmp & out & Hrun & Htmp & _ & Hout & Hobj & Htr);
      [done|apply Hok; set_solver|calls_ok|lia|lia|done|].
    rewrite Hrun. cbn beta iota zeta. rewrite drop_ge, app_nil_r by lia.
    assert (length out = length (cells (localmesh s))) as Hlo.
    { rewrite (elements_length _ _ Hout). by destruct (Hop tmp Htmp) as [-> _]. }
    rewrite (IH 0%Z out Hlo w1) by (by rewrite Hobj).
    rewrite Htr, mjoin_replicate_S. by rewrite <- app_assoc.
Qed.

End Products.

Lemma one_allocation_per_product_demo :
  let r := ksp_run Demo.petsc0 [] [7; 8]%Z [0; 0]%Z in
  let w := Demo.w_setup Demo.petsc0 in
  products (MatMult_shell Demo.petsc0 Demo.A5) r w = 1 ∧
  trace (ksp_iterate (MatMult_shell Demo.petsc0 Demo.A5) r w).1
  = trace w ++ product_events Demo.m2 ∧
  length (filter (λ e, e = Allocate Demo.m2) (product_events Demo.m2)) = 1.
Proof.
  intros r w.
  destruct (one_allocation_per_product Demo.petsc0 Demo.A5 (Demo.s_setup Demo.petsc0)
              r w) as (Htr & Hal & _).
  - reflexivity.
  - split; apply (bool_decide_unpack _); vm_compute; exact I.
  - by intros tr c _.
  - by intros x Hx.
  - by apply demo_solver_sized.
  - by vm_compute.
  - split; [by vm_compute|]. split; [|by vm_compute].
    rewrite Htr. by vm_compute.
Defined.
